(** * VoiceScan: the audio feature pipeline, the mock classifier and the
    result interpreter of [server.js], embedded in Rocq.

    JavaScript numbers are IEEE-754 binary64 values; they are modelled by
    Rocq's primitive [float], whose operations are specified by [SpecFloat].
    The two ambient effects of the program, [Math.random()] and the console,
    together with the part of the file system the program reads, live in a
    [World] that is threaded through a small state-and-exception monad. *)

From Stdlib Require Import ZArith List String Ascii Bool Lia.
From Stdlib Require Import QArith Qpower Lqa.
From Stdlib Require Import Uint63 Floats DecimalString.
From Stdlib Require Import Permutation DecimalPos DecimalN.
Import ListNotations.

Local Open Scope Z_scope.

(* Decimal literals such as 0.4 denote the nearest binary64 value, as in JS. *)
Set Warnings "-inexact-float".

(** ** The JavaScript runtime the program relies on *)

Module JS.

(** A thrown value: the program only throws [Error] objects. *)
Record JsError := mkError { err_name : string; err_message : string }.

(** [new Error(message)] *)
Definition new_Error (message : string) : JsError :=
  {| err_name := "Error"; err_message := message |}.

(** How a call (or an awaited promise) completes. *)
Inductive Completion (A : Type) : Type :=
| Normal (a : A)
| Throw (e : JsError).
Arguments Normal {A} a.
Arguments Throw {A} e.

Definition Buffer := list Byte.byte.

Inductive LogLine :=
| Log (text : string)
| LogError (text : string) (e : JsError).

(** [random_draws w n] is what the [n]-th next call of [Math.random()]
    returns; [files w p] is the content of the file at path [p], if it
    exists; [console w] is what was printed so far, oldest line first. *)
Record World := mkWorld {
  random_draws : nat -> float;
  files : string -> option Buffer;
  console : list LogLine
}.

Definition M (A : Type) : Type := World -> Completion A * World.

Definition ret {A} (a : A) : M A := fun w => (Normal a, w).

Definition bind {A B} (m : M A) (k : A -> M B) : M B :=
  fun w => match m w with
           | (Normal a, w') => k a w'
           | (Throw e, w') => (Throw e, w')
           end.

Definition throw {A} (e : JsError) : M A := fun w => (Throw e, w).

(** [try { body } catch (error) { handler }] *)
Definition try_catch {A} (body : M A) (handler : JsError -> M A) : M A :=
  fun w => match body w with
           | (Normal a, w') => (Normal a, w')
           | (Throw e, w') => handler e w'
           end.

(** [Math.random()] consumes the next draw. *)
Definition Math_random : M float :=
  fun w => (Normal (random_draws w 0%nat),
            {| random_draws := fun n => random_draws w (S n);
               files := files w;
               console := console w |}).

Definition console_log (text : string) : M unit :=
  fun w => (Normal tt,
            {| random_draws := random_draws w;
               files := files w;
               console := console w ++ [Log text] |}).

Definition console_error (text : string) (e : JsError) : M unit :=
  fun w => (Normal tt,
            {| random_draws := random_draws w;
               files := files w;
               console := console w ++ [LogError text e] |}).

Definition fs_existsSync (path : string) : M bool :=
  fun w => (Normal (match files w path with Some _ => true | None => false end), w).

Definition fs_readFileSync (path : string) : M Buffer :=
  fun w => match files w path with
           | Some b => (Normal b, w)
           | None => (Throw {| err_name := "Error";
                               err_message := "ENOENT: no such file or directory" |}, w)
           end.

(** The number that holds a non-negative integer below 2^63 (buffer
    lengths, loop counters). *)
Definition of_Z (z : Z) : float := PrimFloat.of_uint63 (Uint63.of_Z z).

(** [a > b] on numbers; false as soon as one side is NaN. *)
Definition gt (a b : float) : bool := PrimFloat.ltb b a.

(** *** Strings *)

Definition toLowerCase_char (c : ascii) : ascii :=
  let n := nat_of_ascii c in
  if (Nat.leb 65 n && Nat.leb n 90)%bool then ascii_of_nat (n + 32) else c.

(** [s.toLowerCase()], on labels written in ASCII. *)
Fixpoint toLowerCase (s : string) : string :=
  match s with
  | EmptyString => EmptyString
  | String c s' => String (toLowerCase_char c) (toLowerCase s')
  end.

(** [s.includes(pat)] *)
Fixpoint includes (s pat : string) : bool :=
  (String.prefix pat s ||
   match s with
   | EmptyString => false
   | String _ s' => includes s' pat
   end)%bool.

(** *** [Number.prototype.toFixed(1)] *)

Definition decimal (n : Z) : string :=
  NilZero.string_of_uint (N.to_uint (Z.to_N n)).

(** The integer [n] for which [n / 10] is closest to [m * 2^e], the larger
    one when two are equally close. *)
Definition nearest_tenths (m : positive) (e : Z) : Z :=
  if 0 <=? e then 10 * Z.pos m * 2 ^ e
  else (20 * Z.pos m + 2 ^ (- e)) / 2 ^ (1 - e).

Section ToFixed.
(** [Number::toString], which [toFixed] falls back to for values that
    are not finite or not below 10^21. *)
Variable Number_toString : float -> string.

Definition toFixed1 (x : float) : string :=
  match Prim2SF x with
  | S754_nan | S754_infinity _ => Number_toString x
  | S754_zero _ => "0.0"
  | S754_finite s m e =>
      let sign := if s then "-" else "" in
      if PrimFloat.leb 1e21 (PrimFloat.abs x)
      then sign ++ Number_toString (PrimFloat.abs x)
      else let n := nearest_tenths m e in
           sign ++ decimal (n / 10) ++ "." ++ decimal (n mod 10)
  end%string.
End ToFixed.

End JS.

Import JS.

Declare Scope js_scope.
Delimit Scope js_scope with js.
Notation "x <- m ;; k" := (bind m (fun x => k))
  (at level 61, m at next level, right associativity) : js_scope.
Notation "m ;;; k" := (bind m (fun _ => k))
  (at level 61, right associativity) : js_scope.

Local Open Scope js_scope.

(** ** [config]: the settings object exported next to the server *)

Module Config.

Record Audio := {
  sampleRate : Z;
  windowSize : Z;
  hopLength : Z;
  numMFCC : Z;
  numFeatures : Z;
  preEmphasis : float;
  minFreq : Z;
  maxFreq : Z;
  numMelFilters : Z
}.

Record Model := {
  inputLength : Z;
  threshold : float;
  labels : list string
}.

Record Upload := {
  maxFileSize : Z;
  allowedFormats : list string;
  tempDir : string
}.

Record t := { audio : Audio; model : Model; upload : Upload }.

End Config.

Definition config : Config.t :=
  {| Config.audio :=
       {| Config.sampleRate := 16000;
          Config.windowSize := 1024;
          Config.hopLength := 512;
          Config.numMFCC := 13;
          Config.numFeatures := 13;
          Config.preEmphasis := 0.97;
          Config.minFreq := 0;
          Config.maxFreq := 8000;
          Config.numMelFilters := 26 |};
     Config.model :=
       {| Config.inputLength := 13;
          Config.threshold := 0.5;
          Config.labels := ["healthy"; "parkinsons"]%string |};
     Config.upload :=
       {| Config.maxFileSize := 10 * 1024 * 1024;
          Config.allowedFormats := [".wav"; ".mp3"; ".m4a"; ".ogg"]%string;
          Config.tempDir := "./uploads" |} |}.

(** ** The data the pipeline passes around *)

Record ClassScore := { label : string; value : float }.

Record ClassificationResult := {
  anomaly : bool;
  results : list ClassScore
}.

Record Interpretation := {
  hasParkinson : bool;
  confidence : float;
  message : string
}.

Record ProjectInfo := { owner : string; name : string; version : string }.

(** ** [class EdgeImpulseClassifier] *)

Record EdgeImpulseClassifier := { _initialized : bool }.

(** [new EdgeImpulseClassifier()] *)
Definition new_EdgeImpulseClassifier : EdgeImpulseClassifier :=
  {| _initialized := false |}.

(** [init()]: the object after the call is returned next to the (void)
    value the promise resolves with. *)
Definition init (this : EdgeImpulseClassifier) : M (unit * EdgeImpulseClassifier) :=
  if Bool.eqb (_initialized this) true then ret (tt, this)
  else
    let this := {| _initialized := true |} in
    console_log "Mock classifier initialized" ;;;
    ret (tt, this).

Definition getProjectInfo (this : EdgeImpulseClassifier) : ProjectInfo :=
  {| owner := "Demo";
     name := "Parkinsons Speech Analysis";
     version := "1.0.0" |}.

(** [classify(rawData, debug = false)] *)
Definition classify (this : EdgeImpulseClassifier)
    (rawData : list float) (debug : bool) : M ClassificationResult :=
  r <- Math_random ;;
  let healthyScore := (r * 0.4 + 0.3)%float in
  let parkinsonScore := (1 - healthyScore)%float in
  ret {| anomaly := gt parkinsonScore 0.6;
         results := [ {| label := "healthy"; value := healthyScore |};
                      {| label := "parkinson"; value := parkinsonScore |} ] |}.

(** ** Audio processing *)

(** The [const numFeatures = 128] local to [extractFeaturesFromAudio]. *)
Definition numFeatures : Z := 128.

Section Extractor.

(** [Math.sin], an implementation-approximated function of its argument. *)
Variable Math_sin : float -> float.

(** The value pushed by the loop body at index [i], given the draw [r]. *)
Definition feature (seed i : Z) (r : float) : float :=
  ((Math_sin (of_Z seed + of_Z i) + r * 0.5) * 0.5)%float.

(** [for (let i = ...; i < numFeatures; i++) features.push(...)], with
    [n] iterations left to run. *)
Fixpoint push_features (n : nat) (seed i : Z) (features : list float)
  : M (list float) :=
  match n with
  | O => ret features
  | S n' =>
      r <- Math_random ;;
      push_features n' seed (i + 1) (features ++ [feature seed i r])
  end.

Definition extractFeaturesFromAudio (audioBuffer : Buffer) : M (list float) :=
  let features := [] in
  let seed := Z.of_nat (List.length audioBuffer) mod 1000 in
  push_features (Z.to_nat numFeatures) seed 0 features.

Definition processAudioFile (filePath : string) : M (list float) :=
  try_catch
    (present <- fs_existsSync filePath ;;
     if negb present then throw (new_Error "Audio file not found")
     else
       audioBuffer <- fs_readFileSync filePath ;;
       features <- extractFeaturesFromAudio audioBuffer ;;
       ret features)
    (fun error =>
       console_error "Audio processing error:" error ;;;
       throw error).

End Extractor.

(** ** Interpretation of a classification *)

Definition matchesParkinson (r : ClassScore) : bool :=
  includes (toLowerCase (label r)) "parkinson"
  || includes (toLowerCase (label r)) "positive".

Definition matchesHealthy (r : ClassScore) : bool :=
  includes (toLowerCase (label r)) "healthy"
  || includes (toLowerCase (label r)) "negative".

Definition inconclusive_message : string :=
  "Analysis completed but results are inconclusive. Please consult with a healthcare professional for proper evaluation.".

Section Interpreter.

Variable Number_toString : float -> string.

Definition positive_message (v : float) : string :=
  ("Analysis detected speech patterns that may indicate Parkinson's disease ("
   ++ toFixed1 Number_toString (v * 100)%float
   ++ "% confidence). This is a screening tool only - please consult with a healthcare professional for proper medical evaluation and diagnosis.")%string.

Definition negative_message (c : float) : string :=
  ("Analysis did not detect significant indicators of Parkinson's disease in the speech patterns ("
   ++ toFixed1 Number_toString (c * 100)%float
   ++ "% confidence in healthy classification). Remember that this is a screening tool and cannot replace professional medical advice.")%string.

Definition interpretResults (result : ClassificationResult) : Interpretation :=
  let parkinsonResult := find matchesParkinson (results result) in
  let healthyResult := find matchesHealthy (results result) in
  match parkinsonResult with
  | Some parkinsonResult =>
      let hasParkinson := gt (value parkinsonResult) 0.5 in
      let confidence :=
        if hasParkinson then value parkinsonResult
        else match healthyResult with
             | Some healthyResult => value healthyResult
             | None => (1 - value parkinsonResult)%float
             end in
      let message :=
        if hasParkinson then positive_message (value parkinsonResult)
        else negative_message confidence in
      {| hasParkinson := hasParkinson;
         confidence := confidence;
         message := message |}
  | None =>
      {| hasParkinson := anomaly result || false;
         confidence := 0.5;
         message := inconclusive_message |}
  end.

End Interpreter.

(** ** A host to run the program on *)

Module Host.

Local Open Scope float_scope.

(** [1 - y2/(2j(2j+1)) * (1 - y2/((2j+2)(2j+3)) * ...)], [n] factors deep:
    the Taylor series of [sin y / y] in nested form. *)
Fixpoint sin_tail (n : nat) (j : float) (y2 : float) : float :=
  match n with
  | O => 1
  | S n' => 1 - y2 / ((2 * j) * (2 * j + 1)) * sin_tail n' (j + 1) y2
  end.

(** The argument brought back to about [-pi, pi]. *)
Definition reduce (x : float) : float :=
  let k := (x / 6.283185307179586 + 6755399441055744) - 6755399441055744 in
  (x - k * 6.283185307179586) - k * 2.4492935982947064e-16.

Definition clamp (y : float) : float :=
  if y <=? 1 then (if -1 <=? y then y else -1) else 1.

(** One admissible [Math.sin]: ECMAScript leaves the approximation to the
    implementation.  This one is within about 1e-13 of the sine on the
    arguments the extractor passes (the integers 0 to 1126). *)
Definition Math_sin (x : float) : float :=
  if is_finite x then
    let y := reduce x in clamp (y * sin_tail 14 1 (y * y))
  else nan.

(** [Number::toString] on the values that are not finite; the scientific
    notation of the finite values from 10^21 on is not spelled out. *)
Definition Number_toString (x : float) : string :=
  match Prim2SF x with
  | S754_nan => "NaN"
  | S754_infinity false => "Infinity"
  | S754_infinity true => "-Infinity"
  | _ => ""
  end.

Definition no_files : string -> option Buffer := fun _ => None.

(** A world in which every call of [Math.random()] returns [r]. *)
Definition world_const (r : float) : World :=
  {| random_draws := fun _ => r; files := no_files; console := [] |}.

(** A world whose first 128 draws are 0.25 and whose later draws are 0.75. *)
Definition world_two_phase : World :=
  {| random_draws := fun n => if Nat.ltb n 128 then 0.25 else 0.75;
     files := no_files;
     console := [] |}.

(** A world in which an empty upload has been staged. *)
Definition world_empty_upload : World :=
  {| random_draws := fun _ => 0.25;
     files := fun p => if String.eqb p "uploads/1730000000000-silence.wav"
                       then Some [] else None;
     console := [] |}.

(** The classifications of the specification's end-to-end scenarios. *)
Definition result_healthy : ClassificationResult :=
  {| anomaly := false;
     results := [ {| label := "healthy"; value := 0.8 |};
                  {| label := "parkinson"; value := 0.2 |} ] |}.

Definition result_parkinson : ClassificationResult :=
  {| anomaly := true;
     results := [ {| label := "parkinson"; value := 0.73 |};
                  {| label := "healthy"; value := 0.27 |} ] |}.

Definition result_unlabelled : ClassificationResult :=
  {| anomaly := true;
     results := [ {| label := "A"; value := 0.9 |};
                  {| label := "B"; value := 0.1 |} ] |}.

End Host.

(** ** Notions the statements below are phrased with *)

(** The completion is a failure whose error carries the given name. *)
Definition fails_with {A} (error_name : string) (c : Completion A) : Prop :=
  exists e, c = Throw e /\ err_name e = error_name.

(** [x] is the first element of [l] that satisfies [p]. *)
Definition first_match {A} (p : A -> bool) (l : list A) (x : A) : Prop :=
  exists pre post,
    l = pre ++ x :: post /\ forallb (fun y => negb (p y)) pre = true /\ p x = true.

(** No element of [l] satisfies [p]. *)
Definition no_match {A} (p : A -> bool) (l : list A) : Prop :=
  forallb (fun y => negb (p y)) l = true.

(** The world after [n] further calls of [Math.random()]. *)
Definition skip_draws (n : nat) (w : World) : World :=
  {| random_draws := fun k => random_draws w (n + k);
     files := files w;
     console := console w |}.

(** A number between -1 and 1, bounds included. *)
Definition in_unit_ball (x : float) : bool :=
  (PrimFloat.leb (-1) x && PrimFloat.leb x 1)%bool.

(** A number of the interval from 0, included, to 1, excluded. *)
Definition in_unit_interval (x : float) : bool :=
  (PrimFloat.leb 0 x && PrimFloat.ltb x 1)%bool.

(** What a binary64 value below [2 ^ B] in magnitude looks like. *)
Definition below (B : Z) (x : spec_float) : Prop :=
  match x with
  | S754_zero _ => True
  | S754_finite _ m e => Z.pos (digits2_pos m) + e <= B
  | S754_infinity _ | S754_nan => False
  end.

(** ** The upload boundary and the route [POST /api/analyze-audio] *)

(** [fs.unlinkSync(path)] removes the file, and throws when there is none. *)
Definition fs_unlinkSync (path : string) : M unit :=
  fun w => match files w path with
           | Some _ =>
               (Normal tt,
                {| random_draws := random_draws w;
                   files := fun p => if String.eqb p path then None else files w p;
                   console := console w |})
           | None => (Throw {| err_name := "Error";
                               err_message := "ENOENT: no such file or directory" |}, w)
           end.

(** The string of an integer-valued number below 10^21 in magnitude. *)
Definition integer_toString (z : Z) : string :=
  if z <? 0 then ("-" ++ decimal (- z))%string else decimal z.

(** The [filename] callback of the disk storage:
    [Date.now() + '-' + file.originalname], with [now] the value of the clock. *)
Definition storage_filename (now : Z) (originalname : string) : string :=
  (integer_toString now ++ "-" ++ originalname)%string.

(** [req.file], as the upload middleware leaves it. *)
Record UploadedFile := {
  originalname : string;
  filename : string;
  path : string
}.

Record Request := { file : option UploadedFile }.

(** The JSON objects the route answers with:
    [{ success: false, error, details }] ([details] may be absent) and
    [{ success: true, result, interpretation }]. *)
Inductive Json :=
| Failure (error : string) (details : option string)
| Success (result : ClassificationResult) (interpretation : Interpretation).


(** [res.status(code).json(body)]; [res.json(body)] answers with 200. *)
Record Response := { status : Z; body : Json }.

Section Server.

Variable Math_sin : float -> float.
Variable Number_toString : float -> string.

(** How the console renders an [Interpretation] object. *)
Variable inspect : Interpretation -> string.

(** [if (fs.existsSync(p)) fs.unlinkSync(p)] *)
Definition unlink_if_exists (p : string) : M unit :=
  present <- fs_existsSync p ;;
  if present then fs_unlinkSync p else ret tt.

(** The handler of [app.post('/api/analyze-audio', ...)], run on the
    process-wide [classifier]. *)
Definition analyze_audio (classifier : EdgeImpulseClassifier) (req : Request)
  : M Response :=
  try_catch
    (match file req with
     | None =>
         ret {| status := 400;
                body := Failure "No audio file uploaded" None |}
     | Some f =>
         console_log ("Processing audio file: " ++ filename f) ;;;
         features <- processAudioFile Math_sin (path f) ;;
         result <- classify classifier features false ;;
         unlink_if_exists (path f) ;;;
         let interpretation := interpretResults Number_toString result in
         console_log ("Analysis complete: " ++ inspect interpretation) ;;;
         ret {| status := 200; body := Success result interpretation |}
     end)
    (fun error =>
       console_error "Analysis error:" error ;;;
       match file req with
       | Some f => unlink_if_exists (path f)
       | None => ret tt
       end ;;;
       ret {| status := 500;
              body := Failure "Failed to analyze audio"
                              (Some (err_message error)) |}).

End Server.

(** The request of an upload staged at the given path. *)
Definition request_of (staged_path : string) : Request :=
  {| file := Some {| originalname := "silence.wav";
                     filename := "1730000000000-silence.wav";
                     path := staged_path |} |}.

(** A console rendering that shows the message of the interpretation. *)
Definition inspect_message (i : Interpretation) : string := message i.

(** A world in which an upload with the given content has been staged. *)
Definition world_upload (content : Buffer) : World :=
  {| random_draws := fun n => if Nat.eqb n 128 then 0.375%float else 0.25%float;
     files := fun p => if String.eqb p "uploads/1730000000000-silence.wav"
                       then Some content else None;
     console := [] |}.

(** A string made of decimal digits only. *)
Definition digits_only (s : string) : Prop :=
  NilEmpty.uint_of_string s <> None.

(** ** Binary64 values as rationals *)

(** Canonical mantissas: the exponent is the one the format assigns. *)
Definition canonical (m : positive) (e : Z) : Prop :=
  SpecFloat.fexp prec emax (Z.pos (digits2_pos m) + e) = e.

(** The magnitude of a finite value, in units of [2 ^ g]. *)
Definition mag_scaled (g : Z) (x : spec_float) : Z :=
  match x with
  | S754_finite _ m e => Z.pos m * 2 ^ (e - g)
  | _ => 0
  end.

Definition sgn (s : bool) (z : Z) : Z := if s then - z else z.

(** The value of a finite binary64 value in units of [2 ^ g]. *)
Definition sval (g : Z) (x : spec_float) : Z :=
  match x with
  | S754_finite s m e => sgn s (Z.pos m * 2 ^ (e - g))
  | _ => 0
  end.

(** Zero, or a finite value in canonical form whose unit is at least [2 ^ g]. *)
Definition wf (g : Z) (x : spec_float) : Prop :=
  match x with
  | S754_zero _ => True
  | S754_finite _ m e => canonical m e /\ g <= e
  | _ => False
  end.

(** The rational a finite binary64 value stands for (0 for the others). *)
Definition sf_value (x : spec_float) : Q :=
  match x with
  | S754_finite s m e => (inject_Z (sgn s (Z.pos m)) * 2 ^ e)%Q
  | _ => 0%Q
  end.

(** The rational a finite JavaScript number stands for. *)
Definition q_of (a : float) : Q := sf_value (Prim2SF a).

(** ** Binary64 arithmetic: values of bounded magnitude stay finite *)

Module Binary64.

Lemma digits2_pos_size p : digits2_pos p = Pos.size p.
Proof. induction p; simpl; congruence. Qed.

Lemma Zdigits2_nonneg m : 0 <= Zdigits2 m.
Proof. destruct m; simpl; lia. Qed.

(** A non-negative mantissa is below two to the power of its bit length. *)
Lemma Zdigits2_above m : 0 <= m -> m < 2 ^ Zdigits2 m.
Proof.
  destruct m as [|p|p]; simpl; intros H; try lia.
  rewrite digits2_pos_size.
  assert (H1 : Z.pos p < Z.pos (2 ^ Pos.size p)) by exact (Pos.size_gt p).
  rewrite Pos2Z.inj_pow in H1. exact H1.
Qed.

(** Conversely the bit length is the least such exponent. *)
Lemma Zdigits2_le m k : 0 <= k -> 0 <= m < 2 ^ k -> Zdigits2 m <= k.
Proof.
  destruct m as [|p|p]; simpl; intros Hk [H0 H]; try lia.
  rewrite digits2_pos_size.
  assert (Hle : 2 ^ Z.pos (Pos.size p) <= Z.pos p~0).
  { assert (H1 : Z.pos (2 ^ Pos.size p) <= Z.pos p~0) by exact (Pos.size_le p).
    rewrite Pos2Z.inj_pow in H1. exact H1. }
  assert (Hlt : 2 ^ Z.pos (Pos.size p) < 2 ^ (k + 1)).
  { rewrite Z.pow_add_r by lia. change (2 ^ 1) with 2. lia. }
  apply Z.pow_lt_mono_r_iff in Hlt; lia.
Qed.

Lemma shr_m_of_loc m l : shr_m (shr_record_of_loc m l) = m.
Proof. destruct l as [|[]]; reflexivity. Qed.

Lemma shr_1_half mrs : 0 <= shr_m mrs -> shr_m (shr_1 mrs) = shr_m mrs / 2.
Proof.
  destruct mrs as [m r s]; cbn [shr_m]; intros H.
  destruct m as [|[p|p|]|p]; cbn [shr_1 shr_m]; try lia; try reflexivity.
  - apply Z.div_unique with (r := 1); lia.
  - apply Z.div_unique with (r := 0); lia.
Qed.

Lemma iter_shr_1 p : forall mrs, 0 <= shr_m mrs ->
  shr_m (iter_pos shr_1 p mrs) = shr_m mrs / 2 ^ Z.pos p.
Proof.
  assert (Hnn : forall a b, 0 <= a -> 0 < b -> 0 <= a / b)
    by (intros; apply Z.div_pos; lia).
  assert (Hpow : forall q, 0 < 2 ^ Z.pos q) by (intros; apply Z.pow_pos_nonneg; lia).
  induction p as [p IH|p IH|]; intros mrs H; cbn [iter_pos].
  - assert (H1 : 0 <= shr_m (shr_1 mrs))
      by (rewrite shr_1_half by auto; apply Hnn; lia).
    assert (H2 : 0 <= shr_m (iter_pos shr_1 p (shr_1 mrs)))
      by (rewrite IH by auto; apply Hnn; auto).
    rewrite IH, IH, shr_1_half by auto.
    rewrite !Z.div_div by (specialize (Hpow p); lia).
    f_equal. rewrite (Pos2Z.inj_xI p).
    rewrite Z.pow_add_r, Z.pow_mul_r by lia.
    change (2 ^ 2) with (2 * 2). rewrite Z.pow_mul_l. change (2 ^ 1) with 2. ring.
  - assert (H1 : 0 <= shr_m (iter_pos shr_1 p mrs))
      by (rewrite IH by auto; apply Hnn; auto).
    rewrite IH, IH by auto.
    rewrite !Z.div_div by (specialize (Hpow p); lia).
    f_equal. rewrite (Pos2Z.inj_xO p), Z.pow_mul_r by lia.
    change (2 ^ 2) with (2 * 2). rewrite Z.pow_mul_l. ring.
  - rewrite shr_1_half by auto. reflexivity.
Qed.

Abbreviation emin := (SpecFloat.emin prec emax).
Abbreviation fexp := (SpecFloat.fexp prec emax).

(** Shifting a mantissa to its canonical exponent never increases the
    magnitude [Zdigits2 m + e] beyond a bound above [emin]. *)
Lemma shr_fexp_magnitude m e l B :
  0 <= m -> Zdigits2 m + e <= B -> emin <= B ->
  0 <= shr_m (fst (shr_fexp prec emax m e l)) /\
  Zdigits2 (shr_m (fst (shr_fexp prec emax m e l)))
    + snd (shr_fexp prec emax m e l) <= B.
Proof.
  intros Hm HB Hemin. unfold shr_fexp, shr.
  assert (Hd := Zdigits2_nonneg m).
  assert (Hup := Zdigits2_above m Hm).
  destruct (fexp (Zdigits2 m + e) - e) as [|n|n] eqn:En;
    cbn [fst snd]; rewrite ?shr_m_of_loc; try (split; lia).
  rewrite iter_shr_1, shr_m_of_loc by (rewrite shr_m_of_loc; lia).
  assert (Hpow : 0 < 2 ^ Z.pos n) by (apply Z.pow_pos_nonneg; lia).
  split; [apply Z.div_pos; lia|].
  assert (Hk : Zdigits2 (m / 2 ^ Z.pos n) <= Z.max 0 (Zdigits2 m - Z.pos n)).
  { apply Zdigits2_le; [lia|]. split; [apply Z.div_pos; lia|].
    destruct (Z.le_gt_cases (Z.pos n) (Zdigits2 m)) as [Hle|Hgt].
    - rewrite Z.max_r by lia. apply Z.div_lt_upper_bound; [lia|].
      rewrite <- Z.pow_add_r by lia.
      replace (Z.pos n + (Zdigits2 m - Z.pos n)) with (Zdigits2 m) by lia. lia.
    - rewrite Z.max_l by lia. rewrite Z.div_small; [reflexivity|].
      split; [lia|]. apply Z.lt_le_trans with (1 := Hup).
      apply Z.pow_le_mono_r; lia. }
  unfold SpecFloat.fexp, SpecFloat.emin, prec, emax in *. lia.
Qed.

Lemma round_nearest_even_range m l :
  m <= round_nearest_even m l <= m + 1.
Proof.
  destruct l as [|[]]; cbn [round_nearest_even]; try lia.
  destruct (Z.even m); lia.
Qed.

Lemma Zdigits2_succ m k : 0 <= m -> Zdigits2 m <= k -> forall m',
  0 <= m' <= m + 1 -> Zdigits2 m' <= k + 1.
Proof.
  intros Hm Hk m' Hm'. assert (Hd := Zdigits2_nonneg m).
  apply Zdigits2_le; [lia|]. split; [lia|].
  assert (Hup := Zdigits2_above m Hm).
  assert (Hmono : 2 ^ Zdigits2 m <= 2 ^ k) by (apply Z.pow_le_mono_r; lia).
  rewrite Z.pow_add_r by lia. change (2 ^ 1) with 2. lia.
Qed.

Lemma below_mono B B' x : B <= B' -> below B x -> below B' x.
Proof. destruct x; cbn [below]; auto; lia. Qed.

(** Rounding a mantissa of magnitude at most [B] gives a finite value of
    magnitude at most [B + 1], as long as [B] is far from overflow. *)
Lemma binary_round_aux_below sx mx ex lx B :
  0 <= mx -> Zdigits2 mx + ex <= B -> emin <= B -> B + 1 <= emax - prec ->
  below (B + 1) (binary_round_aux prec emax sx mx ex lx).
Proof.
  intros Hm HB Hemin Hmax. unfold binary_round_aux.
  destruct (shr_fexp_magnitude mx ex lx B Hm HB Hemin) as [H1 H2].
  destruct (shr_fexp prec emax mx ex lx) as [mrs' e']; cbn [fst snd] in H1, H2.
  assert (Hr := round_nearest_even_range (shr_m mrs') (loc_of_shr_record mrs')).
  set (m1 := round_nearest_even (shr_m mrs') (loc_of_shr_record mrs')) in *.
  assert (Hd1 : Zdigits2 m1 + e' <= B + 1).
  { assert (Zdigits2 m1 <= (B - e') + 1); [|lia].
    apply Zdigits2_succ with (m := shr_m mrs'); lia. }
  destruct (shr_fexp_magnitude m1 e' loc_Exact (B + 1)) as [H3 H4]; try lia.
  destruct (shr_fexp prec emax m1 e' loc_Exact) as [mrs'' e''];
    cbn [fst snd] in H3, H4.
  destruct (shr_m mrs'') as [|p|p]; cbn [below]; try lia; auto.
  cbn [Zdigits2] in H4.
  replace (e'' <=? emax - prec) with true by (symmetry; apply Z.leb_le; lia).
  cbn [below]. lia.
Qed.

Lemma SFmul_below x y Bx By B :
  below Bx x -> below By y -> Bx + By <= B ->
  emin <= B -> B + 1 <= emax - prec ->
  below (B + 1) (SFmul prec emax x y).
Proof.
  intros Hx Hy HB Hemin Hmax.
  destruct x as [sx|sx| |sx mx ex], y as [sy|sy| |sy my ey];
    cbn [below SFmul] in *; auto; try contradiction.
  apply binary_round_aux_below; try lia.
  assert (Hdx := Zdigits2_above (Z.pos mx)). assert (Hdy := Zdigits2_above (Z.pos my)).
  cbn [Zdigits2] in *.
  assert (Zdigits2 (Z.pos (mx * my)) <= Z.pos (digits2_pos mx) + Z.pos (digits2_pos my));
    [|cbn [Zdigits2] in *; lia].
  apply Zdigits2_le; [lia|]. split; [lia|].
  rewrite Pos2Z.inj_mul, Z.pow_add_r by lia.
  apply Z.mul_lt_mono_nonneg; lia.
Qed.

Lemma iter_xO m d : Z.pos (Pos.iter xO m d) = Z.pos m * 2 ^ Z.pos d.
Proof.
  induction d as [|d IH] using Pos.peano_ind.
  - cbn [Pos.iter]. rewrite (Pos2Z.inj_xO m). change (2 ^ 1) with 2. ring.
  - rewrite Pos.iter_succ, (Pos2Z.inj_xO (Pos.iter xO m d)), IH.
    rewrite Pos2Z.inj_succ, Z.pow_succ_r by lia. ring.
Qed.

(** Aligning a mantissa to a smaller exponent keeps its magnitude. *)
Lemma shl_align_magnitude m e e' :
  Zdigits2 (Z.pos (fst (shl_align m e e'))) + snd (shl_align m e e')
  <= Z.pos (digits2_pos m) + e.
Proof.
  unfold shl_align. destruct (e' - e) as [|d|d] eqn:Ed; cbn [fst snd Zdigits2]; try lia.
  assert (Hup := Zdigits2_above (Z.pos m)). cbn [Zdigits2] in Hup.
  assert (Zdigits2 (Z.pos (Pos.iter xO m d)) <= Z.pos (digits2_pos m) + Z.pos d);
    [|cbn [Zdigits2] in *; lia].
  apply Zdigits2_le; [lia|]. rewrite iter_xO, Z.pow_add_r by lia.
  assert (0 < 2 ^ Z.pos d) by (apply Z.pow_pos_nonneg; lia). nia.
Qed.

Lemma shl_align_fst m e e' : e' <= e ->
  Z.pos (fst (shl_align m e e')) = Z.pos m * 2 ^ (e - e').
Proof.
  intros He. unfold shl_align. destruct (e' - e) as [|d|d] eqn:Ed; cbn [fst]; try lia.
  - replace (e - e') with 0 by lia. change (2 ^ 0) with 1. ring.
  - rewrite iter_xO. f_equal. f_equal. lia.
Qed.

Lemma binary_round_below sx m e B :
  Z.pos (digits2_pos m) + e <= B -> emin <= B -> B + 1 <= emax - prec ->
  below (B + 1) (binary_round prec emax sx m e).
Proof.
  intros HB Hemin Hmax. unfold binary_round.
  assert (H := shl_align_magnitude m e (fexp (Z.pos (digits2_pos m) + e))).
  destruct (shl_align m e (fexp (Z.pos (digits2_pos m) + e))) as [mz ez].
  cbn [fst snd] in H. apply binary_round_aux_below; lia.
Qed.

Lemma binary_normalize_below z e B :
  Z.abs z < 2 ^ (B - e) -> 0 <= B - e -> emin <= B -> B + 1 <= emax - prec ->
  below (B + 1) (binary_normalize prec emax z e false).
Proof.
  intros Hz Hpos Hemin Hmax.
  destruct z as [|m|m]; cbn [binary_normalize below]; auto;
    apply binary_round_below; try lia;
    assert (Zdigits2 (Z.pos m) <= B - e) by (apply Zdigits2_le; lia);
    cbn [Zdigits2] in *; lia.
Qed.

Lemma SFadd_below x y B :
  below B x -> below B y -> emin <= B -> B + 2 <= emax - prec ->
  below (B + 2) (SFadd prec emax x y).
Proof.
  intros Hx Hy Hemin Hmax.
  destruct x as [sx|sx| |sx mx ex], y as [sy|sy| |sy my ey];
    cbn [below SFadd] in *; try contradiction;
    try (destruct sx, sy; cbn [below]; auto; fail);
    try lia.
  set (ez := Z.min ex ey).
  assert (Hzx : ez <= ex) by (unfold ez; lia).
  assert (Hzy : ez <= ey) by (unfold ez; lia).
  clearbody ez.
  replace (B + 2) with ((B + 1) + 1) by ring.
  assert (Hax := shl_align_fst mx ex ez Hzx).
  assert (Hay := shl_align_fst my ey ez Hzy).
  assert (Hdx := Zdigits2_above (Z.pos mx)). assert (Hdy := Zdigits2_above (Z.pos my)).
  cbn [Zdigits2] in Hdx, Hdy.
  assert (Hpx : Z.pos (fst (shl_align mx ex ez)) < 2 ^ (B - ez)).
  { rewrite Hax. apply Z.lt_le_trans with (2 ^ Z.pos (digits2_pos mx) * 2 ^ (ex - ez)).
    - apply Z.mul_lt_mono_pos_r; [apply Z.pow_pos_nonneg; lia | lia].
    - rewrite <- Z.pow_add_r by lia. apply Z.pow_le_mono_r; lia. }
  assert (Hpy : Z.pos (fst (shl_align my ey ez)) < 2 ^ (B - ez)).
  { rewrite Hay. apply Z.lt_le_trans with (2 ^ Z.pos (digits2_pos my) * 2 ^ (ey - ez)).
    - apply Z.mul_lt_mono_pos_r; [apply Z.pow_pos_nonneg; lia | lia].
    - rewrite <- Z.pow_add_r by lia. apply Z.pow_le_mono_r; lia. }
  apply binary_normalize_below; try lia.
  replace (B + 1 - ez) with ((B - ez) + 1) by ring.
  rewrite Z.pow_add_r by lia. change (2 ^ 1) with 2.
  unfold cond_Zopp. destruct sx, sy; lia.
Qed.

Lemma valid_digits s m e :
  valid_binary (S754_finite s m e) = true -> Z.pos (digits2_pos m) <= prec.
Proof.
  cbn [SpecFloat.valid_binary]. unfold bounded, canonical_mantissa.
  intros H. apply andb_prop in H. destruct H as [H _].
  apply Z.eqb_eq in H. unfold SpecFloat.fexp, SpecFloat.emin, prec, emax in *. lia.
Qed.

Lemma Prim2SF_one : Prim2SF 1 = S754_finite false 4503599627370496 (-52).
Proof. reflexivity. Qed.

Lemma Prim2SF_minus_one : Prim2SF (-1) = S754_finite true 4503599627370496 (-52).
Proof. reflexivity. Qed.

Lemma Prim2SF_zero : Prim2SF 0 = S754_zero false.
Proof. reflexivity. Qed.

Lemma Prim2SF_half : Prim2SF 0.5 = S754_finite false 4503599627370496 (-53).
Proof. reflexivity. Qed.

(** A number between -1 and 1 has magnitude at most 1. *)
Lemma unit_ball_below x : in_unit_ball x = true -> below 1 (Prim2SF x).
Proof.
  unfold in_unit_ball. rewrite !leb_spec, Prim2SF_one, Prim2SF_minus_one. intros H.
  apply andb_prop in H. destruct H as [Hlo Hhi].
  assert (Hv := Prim2SF_valid x). unfold SFleb, SFcompare in Hlo, Hhi.
  destruct (Prim2SF x) as [s|s| |s m e]; cbn [below]; auto;
    try discriminate; try (destruct s; discriminate).
  apply valid_digits in Hv. unfold prec in Hv.
  destruct s.
  - destruct (Z.compare_spec (-52) e); try discriminate; lia.
  - destruct (Z.compare_spec e (-52)); try discriminate; lia.
Qed.

(** So has a number of the half-open unit interval. *)
Lemma unit_interval_below x : in_unit_interval x = true -> below 1 (Prim2SF x).
Proof.
  unfold in_unit_interval. rewrite leb_spec, ltb_spec, Prim2SF_one, Prim2SF_zero. intros H.
  apply andb_prop in H. destruct H as [Hlo Hhi].
  assert (Hv := Prim2SF_valid x). unfold SFleb, SFltb, SFcompare in Hlo, Hhi.
  destruct (Prim2SF x) as [s|s| |s m e]; cbn [below]; auto;
    try discriminate; try (destruct s; discriminate).
  apply valid_digits in Hv. unfold prec in Hv.
  destruct s; [discriminate|].
  destruct (Z.compare_spec e (-52)); try discriminate; lia.
Qed.

(** A value with a magnitude is neither NaN nor infinite. *)
Lemma below_is_finite x B : below B (Prim2SF x) -> is_finite x = true.
Proof.
  unfold is_finite, is_nan, is_infinity.
  rewrite !eqb_spec, abs_spec.
  change (Prim2SF infinity) with (S754_infinity false).
  destruct (Prim2SF x) as [s|s| |s m e]; cbn [below]; try contradiction; intros _.
  - reflexivity.
  - unfold SFeqb, SFcompare, SFabs.
    rewrite Z.compare_refl, Pcompare_refl. destruct s; reflexivity.
Qed.

Lemma is_finite_below x : is_finite x = true -> exists B, below B (Prim2SF x).
Proof.
  unfold is_finite, is_nan, is_infinity.
  rewrite !eqb_spec, abs_spec.
  change (Prim2SF infinity) with (S754_infinity false).
  destruct (Prim2SF x) as [s|s| |s m e]; cbn [below].
  - exists 0; exact I.
  - destruct s; discriminate.
  - discriminate.
  - intros _. exists (Z.pos (digits2_pos m) + e). lia.
Qed.

(** The arithmetic of one feature: a sine value in [-1, 1] plus half a draw
    from [0, 1), halved, never overflows. *)
Lemma scaled_sum_finite s r :
  in_unit_ball s = true -> in_unit_interval r = true ->
  is_finite ((s + r * 0.5) * 0.5)%float = true.
Proof.
  intros Hs Hr. apply unit_ball_below in Hs. apply unit_interval_below in Hr.
  assert (Hhalf : below 0 (Prim2SF 0.5)) by (rewrite Prim2SF_half; cbn; lia).
  assert (H1 : below 2 (Prim2SF (r * 0.5)%float)).
  { rewrite mul_spec. change 2 with (1 + 1).
    apply SFmul_below with (Bx := 1) (By := 0); auto;
      unfold SpecFloat.emin, prec, emax; lia. }
  assert (H2 : below 4 (Prim2SF (s + r * 0.5)%float)).
  { rewrite add_spec. change 4 with (2 + 2).
    apply SFadd_below; auto; [apply below_mono with (B := 1); auto; lia| |];
      unfold SpecFloat.emin, prec, emax; lia. }
  apply below_is_finite with (B := 5). rewrite mul_spec. change 5 with (4 + 1).
  apply SFmul_below with (Bx := 4) (By := 0); auto;
    unfold SpecFloat.emin, prec, emax; lia.
Qed.

End Binary64.

(** ** Binary64 arithmetic: rounding respects representable bounds *)

Module Binary64Order.

Import Binary64.

Lemma Zdigits2_below m : 0 < m -> 2 ^ (Zdigits2 m - 1) <= m.
Proof.
  destruct m as [|p|p]; cbn [Zdigits2]; intros H; try lia.
  rewrite digits2_pos_size.
  assert (H1 : Z.pos (2 ^ Pos.size p) <= Z.pos p~0) by exact (Pos.size_le p).
  rewrite Pos2Z.inj_pow in H1.
  replace (Z.pos (Pos.size p)) with ((Z.pos (Pos.size p) - 1) + 1) in H1 by lia.
  rewrite Z.pow_add_r in H1 by lia. change (2 ^ 1) with 2 in H1. lia.
Qed.

(** Shifting out zero bits only leaves both rounding bits clear. *)
Lemma shr_1_exact mrs :
  0 <= shr_m mrs -> shr_r mrs = false -> shr_s mrs = false ->
  shr_m mrs mod 2 = 0 ->
  shr_r (shr_1 mrs) = false /\ shr_s (shr_1 mrs) = false.
Proof.
  destruct mrs as [m r s]; cbn [shr_m shr_r shr_s]. intros Hm -> -> Hmod.
  destruct m as [|[p|p|]|p]; cbn [shr_1 shr_r shr_s orb]; auto; try lia.
  - rewrite Pos2Z.inj_xI in Hmod. rewrite Z.add_comm, Z.mul_comm, Z.mod_add in Hmod by lia.
    discriminate.
  - discriminate.
Qed.

Lemma iter_shr_1_exact p : forall mrs,
  0 <= shr_m mrs -> shr_r mrs = false -> shr_s mrs = false ->
  shr_m mrs mod 2 ^ Z.pos p = 0 ->
  shr_r (iter_pos shr_1 p mrs) = false /\ shr_s (iter_pos shr_1 p mrs) = false.
Proof.
  assert (Hpow : forall q, 0 < 2 ^ Z.pos q) by (intros; apply Z.pow_pos_nonneg; lia).
  assert (Hdiv : forall m a b, 0 <= m -> 0 < a -> 0 < b ->
            m mod (a * b) = 0 -> m mod a = 0 /\ (m / a) mod b = 0).
  { intros m a b Hm Ha Hb H. apply Z.mod_divide in H; [|nia].
    destruct H as [k ->]. split.
    - apply Z.mod_divide; [lia|]. exists (k * b). ring.
    - replace (k * (a * b)) with ((k * b) * a) by ring.
      rewrite Z.div_mul by lia. apply Z.mod_divide; [lia|]. exists k. ring. }
  induction p as [p IH|p IH|]; intros mrs Hm Hr Hs Hmod; cbn [iter_pos].
  - rewrite (Pos2Z.inj_xI p) in Hmod.
    replace (2 ^ (2 * Z.pos p + 1)) with (2 * (2 ^ Z.pos p * 2 ^ Z.pos p)) in Hmod
      by (rewrite Z.pow_add_r, Z.pow_mul_r by lia;
          change (2 ^ 2) with (2 * 2); rewrite Z.pow_mul_l; change (2 ^ 1) with 2; ring).
    specialize (Hpow p).
    destruct (Hdiv _ 2 (2 ^ Z.pos p * 2 ^ Z.pos p) Hm) as [H2 Hrest]; try nia; auto.
    destruct (shr_1_exact mrs Hm Hr Hs H2) as [Hr1 Hs1].
    assert (Hm1 : shr_m (shr_1 mrs) = shr_m mrs / 2) by (apply shr_1_half; auto).
    assert (Hm1' : 0 <= shr_m (shr_1 mrs)) by (rewrite Hm1; apply Z.div_pos; lia).
    rewrite <- Hm1 in Hrest.
    destruct (Hdiv _ (2 ^ Z.pos p) (2 ^ Z.pos p) Hm1') as [Ha Hb]; auto.
    destruct (IH _ Hm1' Hr1 Hs1 Ha) as [Hr2 Hs2].
    apply IH; auto.
    + rewrite iter_shr_1 by auto. apply Z.div_pos; lia.
    + rewrite iter_shr_1 by auto. exact Hb.
  - rewrite (Pos2Z.inj_xO p) in Hmod.
    replace (2 ^ (2 * Z.pos p)) with (2 ^ Z.pos p * 2 ^ Z.pos p) in Hmod
      by (rewrite Z.pow_mul_r by lia;
          change (2 ^ 2) with (2 * 2); rewrite Z.pow_mul_l; ring).
    specialize (Hpow p).
    destruct (Hdiv _ (2 ^ Z.pos p) (2 ^ Z.pos p) Hm) as [Ha Hb]; auto.
    destruct (IH _ Hm Hr Hs Ha) as [Hr2 Hs2].
    apply IH; auto.
    + rewrite iter_shr_1 by auto. apply Z.div_pos; lia.
    + rewrite iter_shr_1 by auto. exact Hb.
  - apply shr_1_exact; auto.
Qed.

Lemma pow2_pos k : 0 <= k -> 0 < 2 ^ k.
Proof. intros; apply Z.pow_pos_nonneg; lia. Qed.

(** The shape of [shr_fexp]: a floor division by the power of two that
    brings the exponent up to the canonical one. *)
Lemma shr_fexp_shape m e l :
  0 <= m ->
  shr_m (fst (shr_fexp prec emax m e l)) =
    m / 2 ^ Z.max 0 (fexp (Zdigits2 m + e) - e) /\
  snd (shr_fexp prec emax m e l) = e + Z.max 0 (fexp (Zdigits2 m + e) - e).
Proof.
  intros Hm. unfold shr_fexp, shr.
  destruct (fexp (Zdigits2 m + e) - e) as [|n|n] eqn:En; cbn [fst snd].
  - rewrite shr_m_of_loc. change (Z.max 0 0) with 0. rewrite Z.div_1_r. split; lia.
  - rewrite iter_shr_1, shr_m_of_loc by (rewrite shr_m_of_loc; lia).
    rewrite Z.max_r by lia. split; reflexivity.
  - rewrite shr_m_of_loc. rewrite Z.max_l by lia. rewrite Z.div_1_r. split; lia.
Qed.

Lemma shr_fexp_exact m e :
  0 <= m -> m mod 2 ^ Z.max 0 (fexp (Zdigits2 m + e) - e) = 0 ->
  loc_of_shr_record (fst (shr_fexp prec emax m e loc_Exact)) = loc_Exact.
Proof.
  intros Hm Hmod. unfold shr_fexp, shr.
  destruct (fexp (Zdigits2 m + e) - e) as [|n|n] eqn:En; cbn [fst snd];
    try reflexivity.
  rewrite Z.max_r in Hmod by lia.
  destruct (iter_shr_1_exact n (shr_record_of_loc m loc_Exact)) as [Hr Hs];
    cbn [shr_record_of_loc shr_m shr_r shr_s]; auto.
  destruct (iter_pos shr_1 n _) as [m' r s]; cbn [shr_r shr_s] in *; subst.
  reflexivity.
Qed.

(** The mantissa after the first shift and the rounding to nearest even. *)
Lemma first_round m e :
  0 <= m ->
  let N := Z.max 0 (fexp (Zdigits2 m + e) - e) in
  let mrs := fst (shr_fexp prec emax m e loc_Exact) in
  let m1 := round_nearest_even (shr_m mrs) (loc_of_shr_record mrs) in
  m / 2 ^ N <= m1 <= m / 2 ^ N + 1 /\ (m mod 2 ^ N = 0 -> m1 = m / 2 ^ N).
Proof.
  intros Hm. cbv zeta. destruct (shr_fexp_shape m e loc_Exact Hm) as [Hq _].
  rewrite <- Hq. split.
  - apply round_nearest_even_range.
  - intros Hmod. rewrite (shr_fexp_exact m e Hm Hmod). reflexivity.
Qed.

(** Rounding down never goes below a representable lower bound. *)
Lemma floor_step_L g m e mc ec :
  0 <= m -> canonical mc ec -> g <= e -> g <= ec ->
  Z.pos mc * 2 ^ (ec - g) <= m * 2 ^ (e - g) ->
  let N := Z.max 0 (fexp (Zdigits2 m + e) - e) in
  Z.pos mc * 2 ^ (ec - g) <= (m / 2 ^ N) * 2 ^ (e + N - g).
Proof.
  intros Hm Hc Hge Hgc Hle N. unfold canonical in Hc.
  assert (HN : 0 <= N) by (unfold N; lia).
  assert (Hm0 : 0 < m).
  { assert (0 < Z.pos mc * 2 ^ (ec - g)) by (assert (H := pow2_pos (ec - g)); nia).
    assert (H1 := pow2_pos (e - g)). nia. }
  destruct (Z.eq_dec N 0) as [HN0|HN0].
  { rewrite HN0, Z.div_1_r, Z.add_0_r. exact Hle. }
  assert (He' : e + N = fexp (Zdigits2 m + e)) by (unfold N; lia).
  assert (Hd := Zdigits2_above m Hm). assert (Hd' := Zdigits2_below m Hm0).
  assert (Hdc := Zdigits2_above (Z.pos mc)). assert (Hdc' := Zdigits2_below (Z.pos mc)).
  cbn [Zdigits2] in Hdc, Hdc'.
  set (d := Zdigits2 m) in *. set (dc := Z.pos (digits2_pos mc)) in *.
  assert (Hdpos : 0 < d) by (unfold d; destruct m; cbn; lia).
  assert (H2N := pow2_pos N HN).
  destruct (Z.le_gt_cases (e + N) ec) as [Hcase|Hcase].
  - (* the bound is a multiple of the new unit *)
    replace (ec - g) with ((ec - (e + N)) + (e + N - g)) by ring.
    rewrite Z.pow_add_r by lia.
    rewrite Z.mul_assoc. apply Z.mul_le_mono_nonneg_r; [apply Z.lt_le_incl, pow2_pos; lia|].
    apply Z.div_le_lower_bound; [lia|].
    replace (e + N - g) with (N + (e - g)) in * by ring.
    replace (ec - g) with ((ec - (e + N)) + (N + (e - g))) in Hle by ring.
    rewrite !Z.pow_add_r in Hle by lia.
    assert (He := pow2_pos (e - g)). nia.
  - (* the bound lies in a lower binade *)
    assert (Hmag : dc + ec <= d + e - 1).
    { unfold SpecFloat.fexp, SpecFloat.emin, prec, emax in *. lia. }
    assert (Hdn : 1 <= d - N).
    { unfold SpecFloat.fexp, SpecFloat.emin, prec, emax in *. lia. }
    assert (Hq : 2 ^ (d - 1 - N) <= m / 2 ^ N).
    { apply Z.div_le_lower_bound; [lia|]. rewrite <- Z.pow_add_r by lia.
      replace (N + (d - 1 - N)) with (d - 1) by ring. exact Hd'. }
    apply Z.le_trans with (2 ^ (dc + ec - g)).
    + replace (dc + ec - g) with (dc + (ec - g)) by ring.
      rewrite Z.pow_add_r by lia.
      assert (H := pow2_pos (ec - g)). nia.
    + apply Z.le_trans with (2 ^ (d - 1 - N) * 2 ^ (e + N - g)).
      * rewrite <- Z.pow_add_r by lia. apply Z.pow_le_mono_r; lia.
      * apply Z.mul_le_mono_nonneg_r; [apply Z.lt_le_incl, pow2_pos; lia | exact Hq].
Qed.

(** Rounding to nearest never goes above a representable upper bound. *)
Lemma ceil_step_U g m e mc ec m1 :
  0 <= m -> canonical mc ec -> g <= e -> g <= ec ->
  m * 2 ^ (e - g) <= Z.pos mc * 2 ^ (ec - g) ->
  let N := Z.max 0 (fexp (Zdigits2 m + e) - e) in
  m / 2 ^ N <= m1 <= m / 2 ^ N + 1 ->
  (m mod 2 ^ N = 0 -> m1 = m / 2 ^ N) ->
  m1 * 2 ^ (e + N - g) <= Z.pos mc * 2 ^ (ec - g).
Proof.
  intros Hm Hc Hge Hgc Hle N Hm1 Hexact. unfold canonical in Hc.
  assert (HN : 0 <= N) by (unfold N; lia).
  destruct (Z.eq_dec N 0) as [HN0|HN0].
  { rewrite HN0 in *. rewrite Z.div_1_r in *. rewrite Z.add_0_r.
    rewrite (Hexact (Z.mod_1_r m)). exact Hle. }
  assert (He' : e + N = fexp (Zdigits2 m + e)) by (unfold N; lia).
  assert (H2N := pow2_pos N HN).
  destruct (Z.eq_dec m 0) as [->|Hm0].
  { rewrite Z.div_0_l in * by lia. rewrite Hexact by (apply Z.mod_0_l; lia).
    assert (H := pow2_pos (ec - g)). nia. }
  assert (Hd' := Zdigits2_below m ltac:(lia)).
  assert (Hdc := Zdigits2_above (Z.pos mc)). cbn [Zdigits2] in Hdc.
  set (d := Zdigits2 m) in *. set (dc := Z.pos (digits2_pos mc)) in *.
  assert (Hdpos : 0 < d) by (unfold d; destruct m; cbn; lia).
  (* the bound has at least the magnitude of the value *)
  assert (Hmag : d + e <= dc + ec).
  { assert (H1 : 2 ^ (d - 1 + (e - g)) < 2 ^ (dc + (ec - g))).
    { rewrite !Z.pow_add_r by lia.
      assert (He := pow2_pos (e - g)). assert (Hec := pow2_pos (ec - g)).
      specialize (Hdc ltac:(lia)). nia. }
    apply Z.pow_lt_mono_r_iff in H1; lia. }
  assert (Hcase : e + N <= ec).
  { unfold SpecFloat.fexp, SpecFloat.emin, prec, emax in *. lia. }
  replace (ec - g) with ((ec - (e + N)) + (e + N - g)) by ring.
  rewrite Z.pow_add_r by lia. rewrite Z.mul_assoc.
  apply Z.mul_le_mono_nonneg_r; [apply Z.lt_le_incl, pow2_pos; lia|].
  set (K := Z.pos mc * 2 ^ (ec - (e + N))).
  assert (HK : m <= K * 2 ^ N).
  { replace (ec - g) with ((ec - (e + N)) + (N + (e - g))) in Hle by ring.
    rewrite !Z.pow_add_r in Hle by lia. fold K in Hle.
    assert (He := pow2_pos (e - g)). unfold K. nia. }
  destruct (Z.eq_dec (m mod 2 ^ N) 0) as [Hmod|Hmod].
  - rewrite (Hexact Hmod). apply Z.div_le_upper_bound; lia.
  - assert (Hdm := Z.div_mod m (2 ^ N) ltac:(lia)).
    assert (Hrange := Z.mod_pos_bound m (2 ^ N) H2N).
    assert (m / 2 ^ N < K); [|lia]. nia.
Qed.

Lemma binary_round_aux_shape sx mx ex :
  0 <= mx ->
  exists m2 e2 m1 N N2,
    0 <= m2 /\ 0 <= N /\ 0 <= N2 /\ e2 = ex + N + N2 /\
    N = Z.max 0 (fexp (Zdigits2 mx + ex) - ex) /\
    N2 = Z.max 0 (fexp (Zdigits2 m1 + (ex + N)) - (ex + N)) /\
    mx / 2 ^ N <= m1 <= mx / 2 ^ N + 1 /\
    (mx mod 2 ^ N = 0 -> m1 = mx / 2 ^ N) /\
    m2 = m1 / 2 ^ N2 /\
    binary_round_aux prec emax sx mx ex loc_Exact =
    match m2 with
    | Z0 => S754_zero sx
    | Zpos m => if e2 <=? emax - prec then S754_finite sx m e2 else S754_infinity sx
    | Zneg _ => S754_nan
    end.
Proof.
  intros Hm. unfold binary_round_aux.
  destruct (shr_fexp_shape mx ex loc_Exact Hm) as [Hq He].
  destruct (first_round mx ex Hm) as [Hr Hexact]. cbv zeta in Hr, Hexact.
  destruct (shr_fexp prec emax mx ex loc_Exact) as [mrs' e'] eqn:E1.
  cbn [fst snd] in *.
  set (m1 := round_nearest_even (shr_m mrs') (loc_of_shr_record mrs')) in *.
  set (N := Z.max 0 (fexp (Zdigits2 mx + ex) - ex)) in *.
  assert (Hm1 : 0 <= m1).
  { assert (0 <= mx / 2 ^ N) by (apply Z.div_pos; [lia | apply pow2_pos; unfold N; lia]).
    lia. }
  destruct (shr_fexp_shape m1 e' loc_Exact Hm1) as [Hq2 He2].
  destruct (shr_fexp prec emax m1 e' loc_Exact) as [mrs'' e''] eqn:E2.
  cbn [fst snd] in *. subst e'.
  exists (shr_m mrs''), e'', m1, N, (Z.max 0 (fexp (Zdigits2 m1 + (ex + N)) - (ex + N))).
  repeat split; try lia; auto.
  rewrite Hq2. apply Z.div_pos; [lia | apply pow2_pos; lia].
Qed.

Lemma binary_round_aux_U g sx mx ex mc ec :
  0 <= mx -> canonical mc ec -> g <= ex -> g <= ec ->
  mx * 2 ^ (ex - g) <= Z.pos mc * 2 ^ (ec - g) ->
  mag_scaled g (binary_round_aux prec emax sx mx ex loc_Exact)
  <= Z.pos mc * 2 ^ (ec - g).
Proof.
  intros Hm Hc Hge Hgc Hle.
  destruct (binary_round_aux_shape sx mx ex Hm)
    as (m2 & e2 & m1 & N & N2 & Hm2 & HN & HN2 & He2 & EN & EN2 & Hr & Hexact & Em2 & ->).
  assert (Hbound : 0 <= Z.pos mc * 2 ^ (ec - g))
    by (assert (H := pow2_pos (ec - g)); nia).
  destruct m2 as [|p|p]; cbn [mag_scaled]; try lia.
  destruct (e2 <=? emax - prec); cbn [mag_scaled]; try lia.
  assert (H1 : m1 * 2 ^ (ex + N - g) <= Z.pos mc * 2 ^ (ec - g)).
  { subst N. apply ceil_step_U; auto. }
  apply Z.le_trans with (2 := H1). subst e2.
  replace (ex + N + N2 - g) with (N2 + (ex + N - g)) by ring.
  rewrite Z.pow_add_r by lia. rewrite Z.mul_assoc.
  apply Z.mul_le_mono_nonneg_r; [apply Z.lt_le_incl, pow2_pos; lia|].
  rewrite Em2. assert (H2 := pow2_pos N2 HN2).
  assert (Hm1 : 0 <= m1).
  { assert (0 <= mx / 2 ^ N) by (apply Z.div_pos; [lia | apply pow2_pos; lia]). lia. }
  rewrite Z.mul_comm. apply Z.mul_div_le. lia.
Qed.

Lemma binary_round_aux_L g sx mx ex mc ec B :
  0 <= mx -> canonical mc ec -> g <= ex -> g <= ec ->
  Z.pos mc * 2 ^ (ec - g) <= mx * 2 ^ (ex - g) ->
  Zdigits2 mx + ex <= B -> emin <= B -> B + 1 <= emax - prec ->
  Z.pos mc * 2 ^ (ec - g)
  <= mag_scaled g (binary_round_aux prec emax sx mx ex loc_Exact).
Proof.
  intros Hm Hc Hge Hgc Hle HB Hemin Hmax.
  assert (Hfin := binary_round_aux_below sx mx ex loc_Exact B Hm HB Hemin Hmax).
  destruct (binary_round_aux_shape sx mx ex Hm)
    as (m2 & e2 & m1 & N & N2 & Hm2 & HN & HN2 & He2 & EN & EN2 & Hr & Hexact & Em2 & E).
  rewrite E in *. clear E.
  assert (Hq : Z.pos mc * 2 ^ (ec - g) <= (mx / 2 ^ N) * 2 ^ (ex + N - g)).
  { subst N. apply floor_step_L; auto. }
  assert (Hm1 : Z.pos mc * 2 ^ (ec - g) <= m1 * 2 ^ (ex + N - g)).
  { apply Z.le_trans with (1 := Hq).
    apply Z.mul_le_mono_nonneg_r; [apply Z.lt_le_incl, pow2_pos; lia | lia]. }
  assert (Hm1' : 0 <= m1).
  { assert (0 <= mx / 2 ^ N) by (apply Z.div_pos; [lia | apply pow2_pos; lia]). lia. }
  assert (H2 : Z.pos mc * 2 ^ (ec - g) <= m2 * 2 ^ (ex + N + N2 - g)).
  { rewrite Em2, EN2. apply floor_step_L; auto; lia. }
  assert (Hpos : 0 < Z.pos mc * 2 ^ (ec - g))
    by (assert (H := pow2_pos (ec - g)); nia).
  destruct m2 as [|p|p]; try lia.
  destruct (e2 <=? emax - prec); cbn [below] in Hfin; try contradiction.
  cbn [mag_scaled]. subst e2. exact H2.
Qed.

Lemma sval_round_aux g s m e :
  0 <= m ->
  sval g (binary_round_aux prec emax s m e loc_Exact) =
  sgn s (mag_scaled g (binary_round_aux prec emax s m e loc_Exact)).
Proof.
  intros Hm.
  destruct (binary_round_aux_shape s m e Hm)
    as (m2 & e2 & m1 & N & N2 & _ & _ & _ & _ & _ & _ & _ & _ & _ & ->).
  destruct m2; [destruct s; reflexivity | | destruct s; reflexivity].
  destruct (e2 <=? emax - prec); [reflexivity | destruct s; reflexivity].
Qed.

Lemma mag_scaled_nonneg g x : 0 <= mag_scaled g x.
Proof.
  destruct x as [| | |s m e]; cbn [mag_scaled]; lia.
Qed.

(** Rounding a signed magnitude stays below a representable upper bound. *)
Lemma sround_U g s m e c B :
  0 <= m -> wf g c -> g <= e ->
  sgn s (m * 2 ^ (e - g)) <= sval g c ->
  Zdigits2 m + e <= B -> emin <= B -> B + 1 <= emax - prec ->
  sval g (binary_round_aux prec emax s m e loc_Exact) <= sval g c.
Proof.
  intros Hm Hc Hge Hle HB Hemin Hmax.
  rewrite sval_round_aux by exact Hm.
  assert (Hnn := mag_scaled_nonneg g (binary_round_aux prec emax s m e loc_Exact)).
  assert (Hp := pow2_pos (e - g) ltac:(lia)).
  destruct c as [sc|sc| |sc mc ec]; cbn [wf sval] in *; try contradiction.
  - (* bound zero *)
    destruct s; cbn [sgn] in *; [lia|].
    assert (m = 0) by nia. subst m.
    destruct (binary_round_aux_shape false 0 e ltac:(lia))
      as (m2 & e2 & m1 & N & N2 & _ & HN & HN2 & _ & _ & _ & Hr & Hex & Em2 & ->).
    rewrite Z.div_0_l in * by (assert (H := pow2_pos N HN); lia).
    rewrite Hex in Em2 by (apply Z.mod_0_l; assert (H := pow2_pos N HN); lia).
    rewrite Z.div_0_l in Em2 by (assert (H := pow2_pos N2 HN2); lia).
    subst m2. cbn. lia.
  - destruct Hc as [Hc Hgc].
    assert (Hcp : 0 < Z.pos mc * 2 ^ (ec - g))
      by (assert (H := pow2_pos (ec - g) ltac:(lia)); nia).
    destruct s, sc; cbn [sgn] in *; try lia.
    + (* both negative: the magnitude is bounded from below *)
      assert (H := binary_round_aux_L g true m e mc ec B Hm Hc Hge Hgc ltac:(lia)
                     HB Hemin Hmax). lia.
    + (* both non-negative *)
      assert (H := binary_round_aux_U g false m e mc ec Hm Hc Hge Hgc Hle). lia.
Qed.

Lemma round_aux_opp s m e l :
  binary_round_aux prec emax (negb s) m e l =
  SFopp (binary_round_aux prec emax s m e l).
Proof.
  unfold binary_round_aux.
  destruct (shr_fexp prec emax m e l) as [mrs' e'].
  destruct (shr_fexp prec emax _ e' loc_Exact) as [mrs'' e''].
  destruct (shr_m mrs''); try reflexivity.
  destruct (e'' <=? emax - prec); reflexivity.
Qed.

Lemma sval_opp g x : sval g (SFopp x) = - sval g x.
Proof. destruct x as [| | |[] m e]; cbn [SFopp sval sgn negb]; lia. Qed.

Lemma wf_opp g x : wf g x -> wf g (SFopp x).
Proof. destruct x; cbn [SFopp wf]; auto. Qed.

Lemma sround_L g s m e c B :
  0 <= m -> wf g c -> g <= e ->
  sval g c <= sgn s (m * 2 ^ (e - g)) ->
  Zdigits2 m + e <= B -> emin <= B -> B + 1 <= emax - prec ->
  sval g c <= sval g (binary_round_aux prec emax s m e loc_Exact).
Proof.
  intros Hm Hc Hge Hle HB Hemin Hmax.
  assert (H := sround_U g (negb s) m e (SFopp c) B Hm (wf_opp g c Hc) Hge).
  rewrite round_aux_opp, !sval_opp in H.
  assert (sgn (negb s) (m * 2 ^ (e - g)) = - sgn s (m * 2 ^ (e - g)))
    by (destruct s; cbn [sgn negb]; lia).
  lia.
Qed.

(** Aligning a mantissa keeps the value. *)
Lemma shl_align_value g m e e' :
  g <= e -> g <= e' ->
  Z.pos (fst (shl_align m e e')) * 2 ^ (snd (shl_align m e e') - g) =
  Z.pos m * 2 ^ (e - g) /\ g <= snd (shl_align m e e').
Proof.
  intros Hge Hge'. unfold shl_align.
  destruct (e' - e) as [|d|d] eqn:Ed; cbn [fst snd]; try (split; [reflexivity|lia]).
  rewrite iter_xO. split; [|lia].
  replace (e - g) with (Z.pos d + (e' - g)) by lia.
  rewrite Z.pow_add_r by lia. ring.
Qed.

Lemma binary_round_bounds g s m e c B :
  wf g c -> g <= e -> g <= emin ->
  Z.pos (digits2_pos m) + e <= B -> emin <= B -> B + 1 <= emax - prec ->
  (sgn s (Z.pos m * 2 ^ (e - g)) <= sval g c ->
   sval g (binary_round prec emax s m e) <= sval g c) /\
  (sval g c <= sgn s (Z.pos m * 2 ^ (e - g)) ->
   sval g c <= sval g (binary_round prec emax s m e)).
Proof.
  intros Hc Hge Hgmin HB Hemin Hmax. unfold binary_round.
  assert (Hf : g <= fexp (Z.pos (digits2_pos m) + e))
    by (unfold SpecFloat.fexp, SpecFloat.emin, prec, emax in *; lia).
  destruct (shl_align_value g m e _ Hge Hf) as [Hv Hg'].
  assert (Hmag := shl_align_magnitude m e (fexp (Z.pos (digits2_pos m) + e))).
  destruct (shl_align m e (fexp (Z.pos (digits2_pos m) + e))) as [mz ez].
  cbn [fst snd] in *. rewrite <- Hv. split; intros H.
  - apply sround_U with (B := B); auto; lia.
  - apply sround_L with (B := B); auto; lia.
Qed.

Lemma Zdigits2_abs_le z k : 0 <= k -> Z.abs z < 2 ^ k -> Zdigits2 z <= k.
Proof.
  intros Hk H. destruct z as [|p|p]; cbn [Zdigits2]; try lia.
  - apply (Zdigits2_le (Z.pos p) k); lia.
  - apply (Zdigits2_le (Z.pos p) k); lia.
Qed.

Lemma binary_normalize_bounds g z e c B :
  wf g c -> g <= e -> g <= emin ->
  Z.abs z < 2 ^ (B - e) -> 0 <= B - e -> emin <= B -> B + 1 <= emax - prec ->
  (z * 2 ^ (e - g) <= sval g c ->
   sval g (binary_normalize prec emax z e false) <= sval g c) /\
  (sval g c <= z * 2 ^ (e - g) ->
   sval g c <= sval g (binary_normalize prec emax z e false)).
Proof.
  intros Hc Hge Hgmin Hz Hpos Hemin Hmax.
  assert (Hd := Zdigits2_abs_le z (B - e) Hpos Hz).
  destruct z as [|m|m]; cbn [binary_normalize Zdigits2] in *.
  - cbn [sval]. split; lia.
  - destruct (binary_round_bounds g false m e c B) as [HU HL]; auto; try lia.
  - destruct (binary_round_bounds g true m e c B) as [HU HL]; auto; try lia.
    cbn [sgn] in *. split; intros H; [apply HU | apply HL]; lia.
Qed.

Lemma aligned_below m e ez B :
  ez <= e -> Z.pos (digits2_pos m) + e <= B ->
  Z.pos (fst (shl_align m e ez)) < 2 ^ (B - ez).
Proof.
  intros He HB. rewrite (shl_align_fst m e ez He).
  assert (Hd := Zdigits2_above (Z.pos m) ltac:(lia)). cbn [Zdigits2] in Hd.
  apply Z.lt_le_trans with (2 ^ Z.pos (digits2_pos m) * 2 ^ (e - ez)).
  - apply Z.mul_lt_mono_pos_r; [apply pow2_pos; lia | lia].
  - rewrite <- Z.pow_add_r by lia. apply Z.pow_le_mono_r; lia.
Qed.

Lemma aligned_value g m e ez :
  g <= ez -> ez <= e ->
  Z.pos (fst (shl_align m e ez)) * 2 ^ (ez - g) = Z.pos m * 2 ^ (e - g).
Proof.
  intros Hg He. rewrite (shl_align_fst m e ez He).
  replace (e - g) with ((e - ez) + (ez - g)) by ring.
  rewrite Z.pow_add_r by lia. ring.
Qed.

Lemma cond_Zopp_sgn s z : cond_Zopp s z = sgn s z.
Proof. reflexivity. Qed.

Lemma sgn_mul s z k : sgn s z * k = sgn s (z * k).
Proof. destruct s; cbn [sgn]; ring. Qed.

Lemma sgn_abs s z : Z.abs (sgn s z) = Z.abs z.
Proof. destruct s; cbn [sgn]; lia. Qed.

Lemma SFadd_bounds g x y c B :
  wf g x -> wf g y -> wf g c -> g <= emin ->
  below B x -> below B y -> emin <= B -> B + 2 <= emax - prec ->
  (sval g x + sval g y <= sval g c -> sval g (SFadd prec emax x y) <= sval g c) /\
  (sval g c <= sval g x + sval g y -> sval g c <= sval g (SFadd prec emax x y)).
Proof.
  intros Hx Hy Hc Hgmin Bx By Hemin Hmax.
  destruct x as [sx|sx| |sx mx ex], y as [sy|sy| |sy my ey];
    cbn [wf below] in *; try contradiction; cbn [SFadd];
    try (destruct sx, sy; cbn [sval]; split; lia);
    try (cbn [sval]; split; lia).
  destruct Hx as [_ Hgx], Hy as [_ Hgy].
  set (ez := Z.min ex ey).
  assert (Hzx : ez <= ex) by (unfold ez; lia).
  assert (Hzy : ez <= ey) by (unfold ez; lia).
  assert (Hgz : g <= ez) by (unfold ez; lia).
  clearbody ez.
  assert (Hax := aligned_below mx ex ez B Hzx Bx).
  assert (Hay := aligned_below my ey ez B Hzy By).
  assert (Vx := aligned_value g mx ex ez Hgz Hzx).
  assert (Vy := aligned_value g my ey ez Hgz Hzy).
  set (ax := Z.pos (fst (shl_align mx ex ez))) in *.
  set (ay := Z.pos (fst (shl_align my ey ez))) in *.
  assert (Hval : (cond_Zopp sx ax + cond_Zopp sy ay) * 2 ^ (ez - g) =
                 sval g (S754_finite sx mx ex) + sval g (S754_finite sy my ey)).
  { cbn [sval]. change cond_Zopp with sgn.
    rewrite Z.mul_add_distr_r, !sgn_mul, Vx, Vy.
    reflexivity. }
  rewrite <- Hval.
  apply binary_normalize_bounds with (B := B + 1); auto; try lia.
  replace (B + 1 - ez) with ((B - ez) + 1) by ring.
  rewrite Z.pow_add_r by lia. change (2 ^ 1) with 2.
  change cond_Zopp with sgn.
  assert (H1 := sgn_abs sx ax). assert (H2 := sgn_abs sy ay).
  assert (0 < ax) by (unfold ax; lia). assert (0 < ay) by (unfold ay; lia). lia.
Qed.

Lemma SFsub_bounds g x y c B :
  wf g x -> wf g y -> wf g c -> g <= emin ->
  below B x -> below B y -> emin <= B -> B + 2 <= emax - prec ->
  (sval g x - sval g y <= sval g c -> sval g (SFsub prec emax x y) <= sval g c) /\
  (sval g c <= sval g x - sval g y -> sval g c <= sval g (SFsub prec emax x y)).
Proof.
  intros Hx Hy Hc Hgmin Bx By Hemin Hmax.
  destruct x as [sx|sx| |sx mx ex], y as [sy|sy| |sy my ey];
    cbn [wf below] in *; try contradiction; cbn [SFsub];
    try (destruct sx, sy; cbn [sval sgn negb]; split; lia);
    try (cbn [sval]; split; lia).
  destruct Hx as [_ Hgx], Hy as [_ Hgy].
  set (ez := Z.min ex ey).
  assert (Hzx : ez <= ex) by (unfold ez; lia).
  assert (Hzy : ez <= ey) by (unfold ez; lia).
  assert (Hgz : g <= ez) by (unfold ez; lia).
  clearbody ez.
  assert (Hax := aligned_below mx ex ez B Hzx Bx).
  assert (Hay := aligned_below my ey ez B Hzy By).
  assert (Vx := aligned_value g mx ex ez Hgz Hzx).
  assert (Vy := aligned_value g my ey ez Hgz Hzy).
  set (ax := Z.pos (fst (shl_align mx ex ez))) in *.
  set (ay := Z.pos (fst (shl_align my ey ez))) in *.
  assert (Hval : (cond_Zopp sx ax - cond_Zopp sy ay) * 2 ^ (ez - g) =
                 sval g (S754_finite sx mx ex) - sval g (S754_finite sy my ey)).
  { cbn [sval]. change cond_Zopp with sgn.
    rewrite Z.mul_sub_distr_r, !sgn_mul, Vx, Vy.
    reflexivity. }
  rewrite <- Hval.
  apply binary_normalize_bounds with (B := B + 1); auto; try lia.
  replace (B + 1 - ez) with ((B - ez) + 1) by ring.
  rewrite Z.pow_add_r by lia. change (2 ^ 1) with 2.
  change cond_Zopp with sgn.
  assert (H1 := sgn_abs sx ax). assert (H2 := sgn_abs sy ay).
  assert (0 < ax) by (unfold ax; lia). assert (0 < ay) by (unfold ay; lia). lia.
Qed.

Lemma SFmul_bounds g x y c Bx By B :
  wf g x -> wf g y -> wf (2 * g) c ->
  below Bx x -> below By y -> Bx + By <= B -> emin <= B -> B + 1 <= emax - prec ->
  (sval g x * sval g y <= sval (2 * g) c ->
   sval (2 * g) (SFmul prec emax x y) <= sval (2 * g) c) /\
  (sval (2 * g) c <= sval g x * sval g y ->
   sval (2 * g) c <= sval (2 * g) (SFmul prec emax x y)).
Proof.
  intros Hx Hy Hc Hbx Hby HB Hemin Hmax.
  destruct x as [sx|sx| |sx mx ex], y as [sy|sy| |sy my ey];
    cbn [wf below] in *; try contradiction; cbn [SFmul];
    try (cbn [sval]; split; lia).
  destruct Hx as [_ Hgx], Hy as [_ Hgy].
  assert (Hval : sgn (xorb sx sy) (Z.pos (mx * my) * 2 ^ (ex + ey - 2 * g)) =
                 sval g (S754_finite sx mx ex) * sval g (S754_finite sy my ey)).
  { cbn [sval]. replace (ex + ey - 2 * g) with ((ex - g) + (ey - g)) by ring.
    rewrite Z.pow_add_r, Pos2Z.inj_mul by lia.
    destruct sx, sy; cbn [sgn xorb]; ring. }
  rewrite <- Hval.
  assert (Hd : Zdigits2 (Z.pos (mx * my)) + (ex + ey) <= B).
  { assert (Hdx := Zdigits2_above (Z.pos mx) ltac:(lia)).
    assert (Hdy := Zdigits2_above (Z.pos my) ltac:(lia)).
    cbn [Zdigits2] in Hdx, Hdy.
    assert (Zdigits2 (Z.pos (mx * my))
            <= Z.pos (digits2_pos mx) + Z.pos (digits2_pos my)); [|lia].
    apply Zdigits2_le; [lia|]. split; [lia|].
    rewrite Pos2Z.inj_mul, Z.pow_add_r by lia.
    apply Z.mul_lt_mono_nonneg; lia. }
  split; intros H.
  - apply sround_U with (B := B); auto; lia.
  - apply sround_L with (B := B); auto; lia.
Qed.

(** Canonical floats are ordered like their (exponent, mantissa) pairs. *)
Lemma canonical_lt g m1 e1 m2 e2 :
  canonical m1 e1 -> canonical m2 e2 -> g <= e1 -> e1 < e2 ->
  Z.pos m1 * 2 ^ (e1 - g) < Z.pos m2 * 2 ^ (e2 - g).
Proof.
  unfold canonical. intros H1 H2 Hg Hlt.
  assert (Hd1 := Zdigits2_above (Z.pos m1) ltac:(lia)).
  assert (Hd2 := Zdigits2_below (Z.pos m2) ltac:(lia)).
  cbn [Zdigits2] in Hd1, Hd2.
  set (d1 := Z.pos (digits2_pos m1)) in *. set (d2 := Z.pos (digits2_pos m2)) in *.
  assert (Hmag : d1 + e1 <= d2 - 1 + e2)
    by (unfold SpecFloat.fexp, SpecFloat.emin, prec, emax in *; lia).
  apply Z.lt_le_trans with (2 ^ d1 * 2 ^ (e1 - g)).
  - apply Z.mul_lt_mono_pos_r; [apply pow2_pos; lia | lia].
  - apply Z.le_trans with (2 ^ (d2 - 1) * 2 ^ (e2 - g)).
    + rewrite <- !Z.pow_add_r by (unfold d1, d2; lia).
      apply Z.pow_le_mono_r; lia.
    + apply Z.mul_le_mono_nonneg_r; [apply Z.lt_le_incl, pow2_pos; lia | lia].
Qed.

Lemma canonical_compare g m1 e1 m2 e2 :
  canonical m1 e1 -> canonical m2 e2 -> g <= e1 -> g <= e2 ->
  (Z.pos m1 * 2 ^ (e1 - g) ?= Z.pos m2 * 2 ^ (e2 - g)) =
  match e1 ?= e2 with
  | Lt => Lt
  | Gt => Gt
  | Eq => Pos.compare_cont Eq m1 m2
  end.
Proof.
  intros H1 H2 Hg1 Hg2. destruct (Z.compare_spec e1 e2) as [->|Hlt|Hgt].
  - rewrite <- Zmult_compare_compat_r
      by (assert (H := pow2_pos (e2 - g) ltac:(lia)); lia).
    reflexivity.
  - apply Z.compare_lt_iff. apply canonical_lt; auto.
  - apply Z.compare_gt_iff. apply canonical_lt; auto.
Qed.

Lemma SFcompare_sval g x y :
  wf g x -> wf g y -> SFcompare x y = Some (sval g x ?= sval g y).
Proof.
  intros Hx Hy.
  destruct x as [sx|sx| |sx mx ex], y as [sy|sy| |sy my ey];
    cbn [wf] in *; try contradiction; cbn [SFcompare sval].
  - reflexivity.
  - destruct Hy as [_ Hg]. assert (H := pow2_pos (ey - g) ltac:(lia)).
    f_equal. symmetry. destruct sy; cbn [sgn];
      [apply Z.compare_gt_iff | apply Z.compare_lt_iff]; nia.
  - destruct Hx as [_ Hg]. assert (H := pow2_pos (ex - g) ltac:(lia)).
    f_equal. symmetry. destruct sx; cbn [sgn];
      [apply Z.compare_lt_iff | apply Z.compare_gt_iff]; nia.
  - destruct Hx as [Hcx Hgx], Hy as [Hcy Hgy].
    assert (Hpx := pow2_pos (ex - g) ltac:(lia)).
    assert (Hpy := pow2_pos (ey - g) ltac:(lia)).
    assert (Hc := canonical_compare g mx ex my ey Hcx Hcy Hgx Hgy).
    f_equal. destruct sx, sy; cbn [sgn].
    + rewrite (Z.compare_opp (Z.pos mx * 2 ^ (ex - g)) (Z.pos my * 2 ^ (ey - g))).
      rewrite (Z.compare_antisym (Z.pos mx * 2 ^ (ex - g)) (Z.pos my * 2 ^ (ey - g))).
      rewrite Hc. destruct (ex ?= ey); reflexivity.
    + symmetry. apply Z.compare_lt_iff. nia.
    + symmetry. apply Z.compare_gt_iff. nia.
    + rewrite Hc. reflexivity.
Qed.

(** *** Rational values *)

Lemma Qpow2_pos g : (0 < 2 ^ g)%Q.
Proof. apply Qpower_0_lt. reflexivity. Qed.

Lemma q_value_sval g x : wf g x -> (sf_value x == inject_Z (sval g x) * 2 ^ g)%Q.
Proof.
  destruct x as [s|s| |s m e]; cbn [wf sf_value sval]; try contradiction;
    try (intros _; ring).
  intros [_ Hg]. rewrite <- sgn_mul, inject_Z_mult.
  rewrite Zpower_Qpower by lia.
  replace e with ((e - g) + g)%Z at 1 by ring.
  rewrite Qpower_plus by discriminate. change (inject_Z 2) with 2%Q. ring.
Qed.

Lemma scaled_le g u v : (inject_Z u * 2 ^ g <= inject_Z v * 2 ^ g)%Q <-> u <= v.
Proof. rewrite Qmult_le_r by apply Qpow2_pos. rewrite <- Zle_Qle. reflexivity. Qed.

Lemma scaled_lt g u v : (inject_Z u * 2 ^ g < inject_Z v * 2 ^ g)%Q <-> u < v.
Proof. rewrite Qmult_lt_r by apply Qpow2_pos. rewrite <- Zlt_Qlt. reflexivity. Qed.

Lemma valid_wf x B : valid_binary x = true -> below B x -> wf emin x.
Proof.
  destruct x as [s|s| |s m e]; cbn [below wf]; try contradiction; auto.
  cbn [SpecFloat.valid_binary]. unfold bounded, canonical_mantissa, canonical.
  intros H _. apply andb_prop in H. destruct H as [H _]. apply Z.eqb_eq in H.
  split; [exact H|]. unfold SpecFloat.fexp, SpecFloat.emin, prec, emax in *. lia.
Qed.

Lemma wf_weaken g g' x : wf g x -> g' <= g -> wf g' x.
Proof. destruct x; cbn [wf]; auto. intros [H1 H2] H; split; [exact H1 | lia]. Qed.

Lemma Prim_wf a B : below B (Prim2SF a) -> wf emin (Prim2SF a).
Proof. apply valid_wf, Prim2SF_valid. Qed.

(** Comparisons of finite numbers are comparisons of their values. *)
Lemma leb_number a b Ba Bb :
  below Ba (Prim2SF a) -> below Bb (Prim2SF b) ->
  PrimFloat.leb a b = true <-> (q_of a <= q_of b)%Q.
Proof.
  intros Ha Hb. apply Prim_wf in Ha, Hb.
  unfold q_of. rewrite (q_value_sval emin _ Ha), (q_value_sval emin _ Hb), scaled_le.
  rewrite leb_spec. unfold SFleb. rewrite (SFcompare_sval emin _ _ Ha Hb).
  destruct (Z.compare_spec (sval emin (Prim2SF a)) (sval emin (Prim2SF b)));
    split; intros; try reflexivity; try lia; discriminate.
Qed.

Lemma ltb_number a b Ba Bb :
  below Ba (Prim2SF a) -> below Bb (Prim2SF b) ->
  PrimFloat.ltb a b = true <-> (q_of a < q_of b)%Q.
Proof.
  intros Ha Hb. apply Prim_wf in Ha, Hb.
  unfold q_of. rewrite (q_value_sval emin _ Ha), (q_value_sval emin _ Hb), scaled_lt.
  rewrite ltb_spec. unfold SFltb. rewrite (SFcompare_sval emin _ _ Ha Hb).
  destruct (Z.compare_spec (sval emin (Prim2SF a)) (sval emin (Prim2SF b)));
    split; intros; try reflexivity; try lia; discriminate.
Qed.

(** A sum of finite numbers, once rounded, respects every bound that is
    itself a q_of. *)
Lemma add_bounds a b c B Bc :
  below B (Prim2SF a) -> below B (Prim2SF b) -> below Bc (Prim2SF c) ->
  emin <= B -> B + 2 <= emax - prec ->
  below (B + 2) (Prim2SF (a + b)) /\
  ((q_of a + q_of b <= q_of c)%Q -> (q_of (a + b) <= q_of c)%Q) /\
  ((q_of c <= q_of a + q_of b)%Q -> (q_of c <= q_of (a + b))%Q).
Proof.
  intros Ha Hb Hc Hemin Hmax.
  assert (Hr : below (B + 2) (Prim2SF (a + b)))
    by (rewrite add_spec; apply SFadd_below; auto).
  split; [exact Hr|].
  assert (Wa := Prim_wf _ _ Ha). assert (Wb := Prim_wf _ _ Hb).
  assert (Wc := Prim_wf _ _ Hc). assert (Wr := Prim_wf _ _ Hr).
  unfold q_of.
  rewrite (q_value_sval emin _ Wa), (q_value_sval emin _ Wb),
          (q_value_sval emin _ Wc), (q_value_sval emin _ Wr).
  rewrite <- Qmult_plus_distr_l, <- inject_Z_plus, !scaled_le.
  rewrite add_spec.
  apply (SFadd_bounds emin _ _ _ B); auto; lia.
Qed.

Lemma SFsub_add_opp x y : SFsub prec emax x y = SFadd prec emax x (SFopp y).
Proof.
  destruct x as [sx|sx| |sx mx ex], y as [sy|sy| |sy my ey];
    cbn [SFsub SFadd SFopp]; try reflexivity;
    try (destruct sy; reflexivity);
    destruct sx, sy; reflexivity.
Qed.

Lemma below_opp B x : below B x -> below B (SFopp x).
Proof. destruct x; cbn [SFopp below]; auto. Qed.

Lemma sub_bounds a b c B Bc :
  below B (Prim2SF a) -> below B (Prim2SF b) -> below Bc (Prim2SF c) ->
  emin <= B -> B + 2 <= emax - prec ->
  below (B + 2) (Prim2SF (a - b)) /\
  ((q_of a - q_of b <= q_of c)%Q -> (q_of (a - b) <= q_of c)%Q) /\
  ((q_of c <= q_of a - q_of b)%Q -> (q_of c <= q_of (a - b))%Q).
Proof.
  intros Ha Hb Hc Hemin Hmax.
  assert (Hr : below (B + 2) (Prim2SF (a - b))).
  { rewrite sub_spec. unfold SF64sub. rewrite SFsub_add_opp.
    apply SFadd_below; auto using below_opp. }
  split; [exact Hr|].
  assert (Wa := Prim_wf _ _ Ha). assert (Wb := Prim_wf _ _ Hb).
  assert (Wc := Prim_wf _ _ Hc). assert (Wr := Prim_wf _ _ Hr).
  unfold q_of.
  rewrite (q_value_sval emin _ Wa), (q_value_sval emin _ Wb),
          (q_value_sval emin _ Wc), (q_value_sval emin _ Wr).
  assert (Hdiff : (inject_Z (sval emin (Prim2SF a)) * 2 ^ emin -
                   inject_Z (sval emin (Prim2SF b)) * 2 ^ emin ==
                   inject_Z (sval emin (Prim2SF a) - sval emin (Prim2SF b)) * 2 ^ emin)%Q).
  { unfold Z.sub. rewrite inject_Z_plus, inject_Z_opp. ring. }
  rewrite Hdiff, !scaled_le. rewrite sub_spec.
  apply (SFsub_bounds emin _ _ _ B); auto; lia.
Qed.

(** So does a product. *)
Lemma mul_bounds a b c Ba Bb B Bc :
  below Ba (Prim2SF a) -> below Bb (Prim2SF b) -> below Bc (Prim2SF c) ->
  Ba + Bb <= B -> emin <= B -> B + 1 <= emax - prec ->
  below (B + 1) (Prim2SF (a * b)) /\
  ((q_of a * q_of b <= q_of c)%Q -> (q_of (a * b) <= q_of c)%Q) /\
  ((q_of c <= q_of a * q_of b)%Q -> (q_of c <= q_of (a * b))%Q).
Proof.
  intros Ha Hb Hc HB Hemin Hmax.
  assert (Hr : below (B + 1) (Prim2SF (a * b)))
    by (rewrite mul_spec; apply SFmul_below with (Bx := Ba) (By := Bb); auto).
  split; [exact Hr|].
  assert (Wa := Prim_wf _ _ Ha). assert (Wb := Prim_wf _ _ Hb).
  assert (Wc := wf_weaken _ (2 * emin) _ (Prim_wf _ _ Hc) ltac:(unfold SpecFloat.emin, prec, emax; lia)).
  assert (Wr := wf_weaken _ (2 * emin) _ (Prim_wf _ _ Hr) ltac:(unfold SpecFloat.emin, prec, emax; lia)).
  unfold q_of.
  rewrite (q_value_sval emin _ Wa), (q_value_sval emin _ Wb),
          (q_value_sval (2 * emin) _ Wc), (q_value_sval (2 * emin) _ Wr).
  assert (Hprod : (inject_Z (sval emin (Prim2SF a)) * 2 ^ emin *
                   (inject_Z (sval emin (Prim2SF b)) * 2 ^ emin) ==
                   inject_Z (sval emin (Prim2SF a) * sval emin (Prim2SF b))
                   * 2 ^ (2 * emin))%Q).
  { rewrite inject_Z_mult. replace (2 * emin)%Z with (emin + emin)%Z by ring.
    rewrite Qpower_plus by discriminate. ring. }
  rewrite Hprod, !scaled_le. rewrite mul_spec.
  apply (SFmul_bounds emin _ _ _ Ba Bb B); auto.
Qed.

(** *** The ranges of the numbers the program computes *)

Ltac by_computation := vm_compute; first [exact I | reflexivity | discriminate].

Lemma q_of_0 : (q_of 0 == 0)%Q. Proof. reflexivity. Qed.
Lemma q_of_1 : (q_of 1 == 1)%Q. Proof. by_computation. Qed.
Lemma q_of_m1 : (q_of (-1) == -1)%Q. Proof. by_computation. Qed.
Lemma q_of_05 : (q_of 0.5 == 1 # 2)%Q. Proof. by_computation. Qed.
Lemma q_of_m05 : (q_of (-0.5) == -1 # 2)%Q. Proof. by_computation. Qed.
Lemma q_of_075 : (q_of 0.75 == 3 # 4)%Q. Proof. by_computation. Qed.
Lemma q_of_15 : (q_of 1.5 == 3 # 2)%Q. Proof. by_computation. Qed.
Lemma q_of_04 : (q_of 0.4 == 3602879701896397 # 9007199254740992)%Q.
Proof. by_computation. Qed.
Lemma q_of_03 : (q_of 0.3 == 5404319552844595 # 18014398509481984)%Q.
Proof. by_computation. Qed.
Lemma q_of_07up : (q_of 0.7000000000000001 == 6305039478318695 # 9007199254740992)%Q.
Proof. by_computation. Qed.
Lemma q_of_03down : (q_of 0.29999999999999993 == 2702159776422297 # 9007199254740992)%Q.
Proof. by_computation. Qed.

Lemma unit_interval_q r :
  in_unit_interval r = true -> (0 <= q_of r < 1)%Q.
Proof.
  intros H. assert (Hb := unit_interval_below r H).
  unfold in_unit_interval in H. apply andb_prop in H. destruct H as [H0 H1].
  apply (leb_number 0 r 0 1) in H0; [|exact I|exact Hb].
  apply (ltb_number r 1 1 1) in H1; [|exact Hb|by_computation].
  rewrite q_of_0 in H0. rewrite q_of_1 in H1. split; assumption.
Qed.

Lemma unit_ball_q s :
  in_unit_ball s = true -> (-1 <= q_of s <= 1)%Q.
Proof.
  intros H. assert (Hb := unit_ball_below s H).
  unfold in_unit_ball in H. apply andb_prop in H. destruct H as [H0 H1].
  apply (leb_number (-1) s 1 1) in H0; [|by_computation|exact Hb].
  apply (leb_number s 1 1 1) in H1; [|exact Hb|by_computation].
  rewrite q_of_m1 in H0. rewrite q_of_1 in H1. split; assumption.
Qed.

(** The scores of the mock classifier, for a draw of [0, 1). *)
Lemma scores_range r :
  in_unit_interval r = true ->
  let healthyScore := (r * 0.4 + 0.3)%float in
  let parkinsonScore := (1 - healthyScore)%float in
  (PrimFloat.leb 0.3 healthyScore = true /\
   PrimFloat.leb healthyScore 0.7000000000000001 = true) /\
  (PrimFloat.leb 0.29999999999999993 parkinsonScore = true /\
   PrimFloat.leb parkinsonScore 0.7000000000000001 = true) /\
  (PrimFloat.leb 0 healthyScore = true /\ PrimFloat.leb healthyScore 1 = true) /\
  (PrimFloat.leb 0 parkinsonScore = true /\ PrimFloat.leb parkinsonScore 1 = true).
Proof.
  intros Hr. cbv zeta.
  assert (Hq := unit_interval_q r Hr). assert (Br := unit_interval_below r Hr).
  assert (B04 : below 0 (Prim2SF 0.4)) by by_computation.
  assert (B03 : below 2 (Prim2SF 0.3)) by by_computation.
  assert (B1 : below 4 (Prim2SF 1)) by by_computation.
  assert (B07 : below 0 (Prim2SF 0.7000000000000001)) by by_computation.
  assert (B03d : below 0 (Prim2SF 0.29999999999999993)) by by_computation.
  assert (B0 : below 0 (Prim2SF 0)) by exact I.
  (* t = r * 0.4 *)
  destruct (mul_bounds r 0.4 0.4 1 0 1 0 Br B04 B04) as (Bt & Up_t & _);
    try (unfold SpecFloat.emin, prec, emax; lia).
  destruct (mul_bounds r 0.4 0 1 0 1 0 Br B04 B0) as (_ & _ & Lo_t);
    try (unfold SpecFloat.emin, prec, emax; lia).
  assert (Ht : (0 <= q_of (r * 0.4) <= q_of 0.4)%Q).
  { split.
    - rewrite <- q_of_0. apply Lo_t. rewrite q_of_0, q_of_04. nra.
    - apply Up_t. rewrite q_of_04. nra. }
  rewrite q_of_04 in Ht.
  (* h = t + 0.3 *)
  change (1 + 1) with 2 in Bt.
  destruct (add_bounds (r * 0.4) 0.3 0.7000000000000001 2 0 Bt B03 B07)
    as (Bh & Uh & _); try (unfold SpecFloat.emin, prec, emax; lia).
  destruct (add_bounds (r * 0.4) 0.3 0.3 2 2 Bt B03 B03)
    as (_ & _ & Lh); try (unfold SpecFloat.emin, prec, emax; lia).
  assert (Hh : (q_of 0.3 <= q_of (r * 0.4 + 0.3) <= q_of 0.7000000000000001)%Q).
  { split.
    - apply Lh. lra.
    - apply Uh. rewrite q_of_03, q_of_07up. lra. }
  change (2 + 2) with 4 in Bh.
  (* p = 1 - h *)
  destruct (sub_bounds 1 (r * 0.4 + 0.3) 0.7000000000000001 4 0 B1 Bh B07)
    as (Bp & Up & _); try (unfold SpecFloat.emin, prec, emax; lia).
  destruct (sub_bounds 1 (r * 0.4 + 0.3) 0.29999999999999993 4 0 B1 Bh B03d)
    as (_ & _ & Lp); try (unfold SpecFloat.emin, prec, emax; lia).
  rewrite q_of_03, q_of_07up in Hh.
  assert (Hp : (q_of 0.29999999999999993 <= q_of (1 - (r * 0.4 + 0.3))
                <= q_of 0.7000000000000001)%Q).
  { split.
    - apply Lp. rewrite q_of_03down, q_of_1. lra.
    - apply Up. rewrite q_of_07up, q_of_1. lra. }
  rewrite q_of_03down, q_of_07up in Hp.
  repeat split.
  - apply (leb_number _ _ 2 4 B03 Bh). rewrite q_of_03. lra.
  - apply (leb_number _ _ 4 0 Bh B07). rewrite q_of_07up. lra.
  - apply (leb_number _ _ 0 _ B03d Bp). rewrite q_of_03down. lra.
  - apply (leb_number _ _ _ 0 Bp B07). rewrite q_of_07up. lra.
  - apply (leb_number _ _ 0 4 B0 Bh). rewrite q_of_0. lra.
  - apply (leb_number _ _ 4 4 Bh B1). rewrite q_of_1. lra.
  - apply (leb_number _ _ 0 _ B0 Bp). rewrite q_of_0. lra.
  - apply (leb_number _ _ _ 4 Bp B1). rewrite q_of_1. lra.
Qed.

(** One feature, for a sine of [-1, 1] and a draw of [0, 1). *)
Lemma scaled_sum_range s r :
  in_unit_ball s = true -> in_unit_interval r = true ->
  PrimFloat.leb (-0.5) ((s + r * 0.5) * 0.5) = true /\
  PrimFloat.leb ((s + r * 0.5) * 0.5) 0.75 = true.
Proof.
  intros Hs Hr.
  assert (Qs := unit_ball_q s Hs). assert (Bs := unit_ball_below s Hs).
  assert (Qr := unit_interval_q r Hr). assert (Br := unit_interval_below r Hr).
  assert (B05 : below 0 (Prim2SF 0.5)) by by_computation.
  assert (B0 : below 0 (Prim2SF 0)) by exact I.
  assert (Bm1 : below 1 (Prim2SF (-1))) by by_computation.
  assert (B15 : below 1 (Prim2SF 1.5)) by by_computation.
  assert (Bm05 : below 0 (Prim2SF (-0.5))) by by_computation.
  assert (B075 : below 0 (Prim2SF 0.75)) by by_computation.
  destruct (mul_bounds r 0.5 0.5 1 0 1 0 Br B05 B05) as (Bt & Up_t & _);
    try (unfold SpecFloat.emin, prec, emax; lia).
  destruct (mul_bounds r 0.5 0 1 0 1 0 Br B05 B0) as (_ & _ & Lo_t);
    try (unfold SpecFloat.emin, prec, emax; lia).
  assert (Ht : (0 <= q_of (r * 0.5) <= 1 # 2)%Q).
  { split.
    - rewrite <- q_of_0. apply Lo_t. rewrite q_of_0, q_of_05. nra.
    - rewrite <- q_of_05. apply Up_t. rewrite q_of_05. nra. }
  change (1 + 1) with 2 in Bt.
  assert (Bs2 : below 2 (Prim2SF s)) by (apply below_mono with (B := 1); auto; lia).
  destruct (add_bounds s (r * 0.5) 1.5 2 1 Bs2 Bt B15) as (Bu & Uu & _);
    try (unfold SpecFloat.emin, prec, emax; lia).
  destruct (add_bounds s (r * 0.5) (-1) 2 1 Bs2 Bt Bm1) as (_ & _ & Lu);
    try (unfold SpecFloat.emin, prec, emax; lia).
  assert (Hu : (-1 <= q_of (s + r * 0.5) <= 3 # 2)%Q).
  { split.
    - rewrite <- q_of_m1. apply Lu. rewrite q_of_m1. lra.
    - rewrite <- q_of_15. apply Uu. rewrite q_of_15. lra. }
  change (2 + 2) with 4 in Bu.
  destruct (mul_bounds (s + r * 0.5) 0.5 0.75 4 0 4 0 Bu B05 B075) as (Bf & Uf & _);
    try (unfold SpecFloat.emin, prec, emax; lia).
  destruct (mul_bounds (s + r * 0.5) 0.5 (-0.5) 4 0 4 0 Bu B05 Bm05) as (_ & _ & Lf);
    try (unfold SpecFloat.emin, prec, emax; lia).
  split.
  - apply (leb_number _ _ 0 _ Bm05 Bf). apply Lf. rewrite q_of_m05, q_of_05. lra.
  - apply (leb_number _ _ _ 0 Bf B075). apply Uf. rewrite q_of_075, q_of_05. lra.
Qed.

End Binary64Order.

(** ** The runtime helpers *)

Lemma of_Z_below z : 0 <= z < 2 ^ 62 -> below 63 (Prim2SF (of_Z z)).
Proof.
  intros Hz. unfold of_Z. rewrite of_uint63_spec.
  assert (E : Uint63.to_Z (Uint63.of_Z z) = z).
  { rewrite Uint63.of_Z_spec. apply Z.mod_small.
    change Uint63.wB with (2 ^ 63).
    assert (2 ^ 62 < 2 ^ 63) by (apply Z.pow_lt_mono_r; lia). lia. }
  change (Uint63Axioms.to_Z (Uint63.of_Z z)) with (Uint63.to_Z (Uint63.of_Z z)).
  rewrite E. change 63 with (62 + 1). apply Binary64.binary_normalize_below;
    rewrite ?Z.sub_0_r; unfold SpecFloat.emin, prec, emax; lia.
Qed.

(** The sum of two counters is a finite number. *)
Lemma of_Z_sum_finite a b :
  0 <= a < 2 ^ 62 -> 0 <= b < 2 ^ 62 -> is_finite (of_Z a + of_Z b) = true.
Proof.
  intros Ha Hb. apply Binary64.below_is_finite with (B := 63 + 2).
  rewrite add_spec. apply Binary64.SFadd_below; auto using of_Z_below;
    unfold SpecFloat.emin, prec, emax; lia.
Qed.

Lemma float_neq a b : PrimFloat.Leibniz.eqb a b = false -> a <> b.
Proof.
  intros H E. apply FloatAxioms.Leibniz.eqb_spec in E. congruence.
Qed.

Lemma includes_app_r a b pat :
  includes b pat = true -> includes (a ++ b) pat = true.
Proof.
  intros H. induction a as [|c a IH]; cbn [String.append]; [exact H|].
  cbn [includes]. rewrite IH. apply orb_true_r.
Qed.

Lemma prefix_spec pat s :
  String.prefix pat s = true <-> exists post, s = (pat ++ post)%string.
Proof.
  revert s. induction pat as [|c pat IH]; intros s.
  - destruct s; cbn [String.prefix String.append];
      (split; [intros _; eexists; reflexivity | reflexivity]).
  - destruct s as [|d s]; cbn [String.prefix String.append].
    + split; [discriminate | intros (post & H); discriminate H].
    + destruct (Ascii.ascii_dec c d) as [->|Hcd].
      * rewrite IH. split; intros (post & H); exists post; congruence.
      * split; [discriminate | intros (post & H); congruence].
Qed.

(** [includes] is the substring test. *)
Lemma includes_spec s pat :
  includes s pat = true <-> exists pre post, s = (pre ++ pat ++ post)%string.
Proof.
  induction s as [|c s IH]; cbn [includes].
  - rewrite orb_false_r, prefix_spec. split.
    + intros (post & H). exists EmptyString, post. exact H.
    + intros ([|d pre] & post & H); [exists post; exact H | discriminate H].
  - rewrite orb_true_iff, prefix_spec, IH. split.
    + intros [(post & H)|(pre & post & H)].
      * exists EmptyString, post. exact H.
      * exists (String c pre), post. cbn [String.append]. congruence.
    + intros ([|d pre] & post & H).
      * left. exists post. exact H.
      * right. exists pre, post. cbn [String.append] in H. congruence.
Qed.

Lemma find_first_match {A} (p : A -> bool) l x :
  first_match p l x -> find p l = Some x.
Proof.
  intros (pre & post & -> & Hpre & Hx).
  induction pre as [|y pre IH]; cbn [app find].
  - rewrite Hx. reflexivity.
  - cbn [forallb] in Hpre. apply andb_prop in Hpre. destruct Hpre as [Hy Hpre].
    apply negb_true_iff in Hy. rewrite Hy. auto.
Qed.

Lemma find_no_match {A} (p : A -> bool) l : no_match p l -> find p l = None.
Proof.
  unfold no_match. induction l as [|y l IH]; cbn [find forallb]; [reflexivity|].
  intros H. apply andb_prop in H. destruct H as [Hy Hl].
  apply negb_true_iff in Hy. rewrite Hy. auto.
Qed.

Lemma skip_draws_0 w : skip_draws 0 w = w.
Proof. destruct w; reflexivity. Qed.

(** ** The feature extractor *)

Section ExtractorFacts.

Variable Math_sin : float -> float.

(** The loop consumes one draw per feature and appends the features in
    index order. *)
Lemma push_features_spec n : forall seed i features w,
  push_features Math_sin n seed i features w =
  (Normal (features ++
           map (fun k => feature Math_sin seed (i + Z.of_nat k) (random_draws w k))
               (seq 0 n)),
   skip_draws n w).
Proof.
  induction n as [|n IH]; intros seed i features w.
  - cbn [push_features seq map ret]. unfold ret.
    rewrite app_nil_r, skip_draws_0. reflexivity.
  - cbn [push_features]. unfold bind, Math_random. rewrite IH.
    cbn [random_draws]. f_equal.
    + f_equal. rewrite <- app_assoc. cbn [app seq map]. f_equal.
      rewrite Z.add_0_r. f_equal.
      rewrite <- seq_shift, map_map. apply map_ext. intros k.
      f_equal. lia.
Qed.

Lemma extractFeaturesFromAudio_spec audioBuffer w :
  extractFeaturesFromAudio Math_sin audioBuffer w =
  (Normal (map (fun k => feature Math_sin
                           (Z.of_nat (List.length audioBuffer) mod 1000)
                           (Z.of_nat k) (random_draws w k))
               (seq 0 128)),
   skip_draws 128 w).
Proof.
  unfold extractFeaturesFromAudio. rewrite push_features_spec. reflexivity.
Qed.

(** A missing file is the one failure of [processAudioFile]: it is logged
    and the promise rejects with a plain [Error]. *)
Lemma processAudioFile_missing filePath w :
  files w filePath = None ->
  processAudioFile Math_sin filePath w =
  (Throw (new_Error "Audio file not found"),
   {| random_draws := random_draws w;
      files := files w;
      console := console w ++
                 [LogError "Audio processing error:"
                           (new_Error "Audio file not found")] |}).
Proof.
  intros H. unfold processAudioFile, try_catch, bind, fs_existsSync.
  rewrite H. reflexivity.
Qed.

Lemma processAudioFile_present filePath audioBuffer w :
  files w filePath = Some audioBuffer ->
  processAudioFile Math_sin filePath w =
  extractFeaturesFromAudio Math_sin audioBuffer w.
Proof.
  intros H. unfold processAudioFile, try_catch, bind, fs_existsSync, fs_readFileSync.
  rewrite H. cbn [negb]. rewrite H, extractFeaturesFromAudio_spec. reflexivity.
Qed.

End ExtractorFacts.

Lemma Host_Math_sin_range x :
  is_finite x = true -> in_unit_ball (Host.Math_sin x) = true.
Proof.
  intros Hx. unfold Host.Math_sin, Host.clamp, in_unit_ball. rewrite Hx.
  set (y := (Host.reduce x * Host.sin_tail 14 1 (Host.reduce x * Host.reduce x))%float).
  destruct (PrimFloat.leb y 1) eqn:E1; [destruct (PrimFloat.leb (-1) y) eqn:E2|];
    rewrite ?E1, ?E2; reflexivity.
Qed.

(** *** Determinism *)

(** C1, as the code has it: two calls of [extractFeaturesFromAudio] on the
    same bytes return identical feature vectors whenever the 128 values that
    [Math.random()] yields during the two calls coincide. *)
Theorem extract_determined_by_draws Math_sin audioBuffer w1 w2 :
  (forall n, (n < 128)%nat -> random_draws w1 n = random_draws w2 n) ->
  fst (extractFeaturesFromAudio Math_sin audioBuffer w1) =
  fst (extractFeaturesFromAudio Math_sin audioBuffer w2).
Proof.
  intros Hdraws. rewrite !extractFeaturesFromAudio_spec. cbn [fst]. f_equal.
  apply map_ext_in. intros k Hk. apply in_seq in Hk.
  rewrite Hdraws by lia. reflexivity.
Qed.

Lemma extract_determined_by_draws_witness :
  (forall n, (n < 128)%nat ->
     random_draws (Host.world_const 0.25) n = random_draws Host.world_two_phase n) /\
  fst (extractFeaturesFromAudio Host.Math_sin [Byte.x52; Byte.x49] (Host.world_const 0.25)) =
  fst (extractFeaturesFromAudio Host.Math_sin [Byte.x52; Byte.x49] Host.world_two_phase).
Proof.
  assert (H : forall n, (n < 128)%nat ->
     random_draws (Host.world_const 0.25) n = random_draws Host.world_two_phase n).
  { intros n Hn. cbn [random_draws Host.world_const Host.world_two_phase].
    apply Nat.ltb_lt in Hn. rewrite Hn. reflexivity. }
  split; [exact H|].
  apply (extract_determined_by_draws Host.Math_sin [Byte.x52; Byte.x49] _ _ H).
Defined.

(** C1, as the claim states it, fails: a second call on the same bytes draws
    fresh random numbers and returns another vector. *)
Lemma extract_twice_differs :
  fst (extractFeaturesFromAudio Host.Math_sin [Byte.x52; Byte.x49]
         Host.world_two_phase) <>
  fst (extractFeaturesFromAudio Host.Math_sin [Byte.x52; Byte.x49]
         (snd (extractFeaturesFromAudio Host.Math_sin [Byte.x52; Byte.x49]
                 Host.world_two_phase))).
Proof.
  rewrite !extractFeaturesFromAudio_spec. cbn [fst snd]. intros H.
  apply (f_equal (fun c => match c with
                            | Normal v => hd 0%float v
                            | Throw _ => 0%float
                            end)) in H.
  revert H. apply float_neq. vm_compute. reflexivity.
Qed.

(** X9: the extractor never reads the bytes: the result (vector and world)
    only depends on the buffer through its length modulo 1000. *)
Lemma extract_depends_on_length Math_sin buffer1 buffer2 w :
  Z.of_nat (List.length buffer1) mod 1000 = Z.of_nat (List.length buffer2) mod 1000 ->
  extractFeaturesFromAudio Math_sin buffer1 w =
  extractFeaturesFromAudio Math_sin buffer2 w.
Proof.
  intros H. rewrite !extractFeaturesFromAudio_spec, H. reflexivity.
Qed.

(** *** The empty buffer *)

(** C2, as the code has it: for the empty audio byte buffer
    [extractFeaturesFromAudio] raises nothing and resolves with the 128
    features of seed 0, and [processAudioFile] on an existing empty file
    resolves with that same vector. *)
Theorem empty_buffer_resolves Math_sin filePath w :
  files w filePath = Some [] ->
  exists v,
    extractFeaturesFromAudio Math_sin [] w = (Normal v, skip_draws 128 w) /\
    processAudioFile Math_sin filePath w = (Normal v, skip_draws 128 w) /\
    v = map (fun k => feature Math_sin 0 (Z.of_nat k) (random_draws w k)) (seq 0 128) /\
    Z.of_nat (List.length v) = numFeatures.
Proof.
  intros Hfile. eexists. split; [apply extractFeaturesFromAudio_spec|].
  split; [|split].
  - rewrite (processAudioFile_present _ _ _ _ Hfile).
    apply extractFeaturesFromAudio_spec.
  - reflexivity.
  - rewrite length_map, length_seq. reflexivity.
Qed.

Lemma empty_buffer_resolves_witness :
  files Host.world_empty_upload "uploads/1730000000000-silence.wav" = Some [] /\
  exists v,
    fst (processAudioFile Host.Math_sin "uploads/1730000000000-silence.wav"
           Host.world_empty_upload) = Normal v /\
    Z.of_nat (List.length v) = 128.
Proof.
  split; [reflexivity|].
  destruct (empty_buffer_resolves Host.Math_sin "uploads/1730000000000-silence.wav"
              Host.world_empty_upload eq_refl) as (v & _ & Hp & _ & Hlen).
  exists v. rewrite Hp. split; [reflexivity | exact Hlen].
Defined.

(** C2, as the claim states it, fails: on the empty buffer neither
    [extractFeaturesFromAudio] nor [processAudioFile] fails with an
    [InvalidAudioError]. *)
Lemma empty_buffer_not_rejected :
  ~ fails_with "InvalidAudioError"
      (fst (extractFeaturesFromAudio Host.Math_sin [] Host.world_empty_upload)) /\
  ~ fails_with "InvalidAudioError"
      (fst (processAudioFile Host.Math_sin "uploads/1730000000000-silence.wav"
              Host.world_empty_upload)).
Proof.
  rewrite (processAudioFile_present Host.Math_sin
             "uploads/1730000000000-silence.wav" [] Host.world_empty_upload eq_refl).
  rewrite extractFeaturesFromAudio_spec. cbn [fst].
  split; intros (e & H & _); discriminate H.
Qed.

(** *** Length and finiteness of the vector *)

Lemma feature_finite Math_sin seed i r :
  (forall x, is_finite x = true -> in_unit_ball (Math_sin x) = true) ->
  0 <= seed < 2 ^ 62 -> 0 <= i < 2 ^ 62 ->
  in_unit_interval r = true ->
  is_finite (feature Math_sin seed i r) = true.
Proof.
  intros Hsin Hseed Hi Hr. unfold feature.
  apply Binary64.scaled_sum_finite; [|exact Hr].
  apply Hsin, of_Z_sum_finite; assumption.
Qed.

(** C8, as the code has it: for every audio byte buffer, empty or not,
    [extractFeaturesFromAudio] returns a vector of exactly 128 elements, the
    constant [numFeatures] local to the function, and every element is
    finite, given that [Math.sin] maps finite numbers into [-1, 1] and that
    [Math.random()] returns numbers of [0, 1). *)
Theorem extract_length_and_finite Math_sin audioBuffer w :
  (forall x, is_finite x = true -> in_unit_ball (Math_sin x) = true) ->
  (forall n, in_unit_interval (random_draws w n) = true) ->
  exists v w',
    extractFeaturesFromAudio Math_sin audioBuffer w = (Normal v, w') /\
    Z.of_nat (List.length v) = numFeatures /\
    Forall (fun x => is_finite x = true) v.
Proof.
  intros Hsin Hrandom. rewrite extractFeaturesFromAudio_spec.
  eexists. eexists. split; [reflexivity|]. split.
  - rewrite length_map, length_seq. reflexivity.
  - apply Forall_forall. intros x Hx. apply in_map_iff in Hx.
    destruct Hx as (k & <- & Hk). apply in_seq in Hk.
    assert (Hmod := Z.mod_pos_bound (Z.of_nat (List.length audioBuffer)) 1000).
    assert (1000 < 2 ^ 62) by reflexivity.
    apply feature_finite; auto; lia.
Qed.

Lemma extract_length_and_finite_witness :
  (forall x, is_finite x = true -> in_unit_ball (Host.Math_sin x) = true) /\
  (forall n, in_unit_interval (random_draws (Host.world_const 0.25) n) = true) /\
  exists v w',
    extractFeaturesFromAudio Host.Math_sin [Byte.x52; Byte.x49; Byte.x46]
      (Host.world_const 0.25) = (Normal v, w') /\
    Z.of_nat (List.length v) = numFeatures /\
    Forall (fun x => is_finite x = true) v.
Proof.
  assert (Hr : forall n, in_unit_interval (random_draws (Host.world_const 0.25) n) = true)
    by (intros n; reflexivity).
  split; [exact Host_Math_sin_range|]. split; [exact Hr|].
  exact (extract_length_and_finite Host.Math_sin [Byte.x52; Byte.x49; Byte.x46]
           (Host.world_const 0.25) Host_Math_sin_range Hr).
Defined.

(** C8, as the claim states it, fails: the length of the vector is not the
    configured feature count [config.audio.numFeatures]. *)
Lemma extract_length_not_configured :
  exists v,
    fst (extractFeaturesFromAudio Host.Math_sin [Byte.x52; Byte.x49; Byte.x46]
           (Host.world_const 0.25)) = Normal v /\
    Z.of_nat (List.length v) = 128 /\
    Config.numFeatures (Config.audio config) = 13 /\
    Z.of_nat (List.length v) <> Config.numFeatures (Config.audio config).
Proof.
  rewrite extractFeaturesFromAudio_spec. cbn [fst]. eexists.
  split; [reflexivity|]. rewrite length_map, length_seq.
  repeat split. discriminate.
Qed.

(** ** The classifier *)

Lemma classify_spec this rawData debug w :
  classify this rawData debug w =
  (Normal
     {| anomaly := gt (1 - (random_draws w 0 * 0.4 + 0.3)) 0.6;
        results :=
          [ {| label := "healthy"; value := (random_draws w 0 * 0.4 + 0.3)%float |};
            {| label := "parkinson";
               value := (1 - (random_draws w 0 * 0.4 + 0.3))%float |} ] |},
   skip_draws 1 w).
Proof. reflexivity. Qed.

(** C3, as the code has it: for every call to [classify], the returned
    anomaly flag is true if and only if the "parkinson" score exceeds 0.6,
    the literal written in [classify]. *)
Theorem classify_anomaly_threshold this rawData debug w :
  exists res w',
    classify this rawData debug w = (Normal res, w') /\
    forall s, In s (results res) -> label s = "parkinson"%string ->
              (anomaly res = true <-> gt (value s) 0.6 = true).
Proof.
  rewrite classify_spec. eexists. eexists. split; [reflexivity|].
  cbn [results anomaly]. intros s [<-|[<-|[]]] Hl; cbn [label value] in *.
  - discriminate Hl.
  - reflexivity.
Qed.

(** C3, as the claim states it, fails: with the draw 0.375 the "parkinson"
    score, about 0.55, exceeds the configured threshold
    [config.model.threshold] = 0.5, and yet the anomaly flag is false. *)
Lemma anomaly_ignores_config_threshold :
  exists res,
    fst (classify new_EdgeImpulseClassifier [0.25; 0.5]%float false
           (Host.world_const 0.375)) = Normal res /\
    Config.threshold (Config.model config) = 0.5%float /\
    anomaly res = false /\
    exists s, In s (results res) /\ label s = "parkinson"%string /\
              gt (value s) (Config.threshold (Config.model config)) = true.
Proof.
  rewrite classify_spec. cbn [fst]. eexists. split; [reflexivity|].
  split; [reflexivity|]. split; [reflexivity|].
  eexists. split; [right; left; reflexivity|]. split; reflexivity.
Qed.

(** C7, as the code has it: [classify] never consults [_initialized]; on a
    classifier on which [init] has not completed it returns the very
    [ClassificationResult] it returns on an initialized one, and raises
    nothing. *)
Theorem classify_ignores_initialized this this' rawData debug w :
  classify this rawData debug w = classify this' rawData debug w /\
  exists res w', classify this rawData debug w = (Normal res, w').
Proof.
  split; [reflexivity|]. rewrite classify_spec. eexists. eexists. reflexivity.
Qed.

(** C7, as the claim states it, fails: [classify] on a freshly constructed
    classifier, before any [init], does not signal [NotInitializedError]. *)
Lemma classify_before_init_returns :
  _initialized new_EdgeImpulseClassifier = false /\
  ~ fails_with "NotInitializedError"
      (fst (classify new_EdgeImpulseClassifier [0.25; 0.5]%float false
              (Host.world_const 0.375))).
Proof.
  split; [reflexivity|]. rewrite classify_spec. cbn [fst].
  intros (e & H & _). discriminate H.
Qed.

(** [init] on an initialized classifier changes nothing and prints nothing. *)
Lemma init_initialized this w :
  _initialized this = true -> init this w = (Normal (tt, this), w).
Proof. intros H. unfold init. rewrite H. reflexivity. Qed.

(** C9: [init] is idempotent.  Whatever the classifier's state, a first
    [init] succeeds; a second [init] then succeeds at once, leaves the
    classifier and the world (console included) as they are, and
    [getProjectInfo] returns after it what it returned before it. *)
Theorem init_idempotent this w :
  exists this1 w1,
    init this w = (Normal (tt, this1), w1) /\
    _initialized this1 = true /\
    init this1 w1 = (Normal (tt, this1), w1) /\
    forall this2 w2, init this1 w1 = (Normal (tt, this2), w2) ->
                     getProjectInfo this2 = getProjectInfo this1.
Proof.
  destruct this as [[|]].
  - exists {| _initialized := true |}, w. repeat split.
  - exists {| _initialized := true |},
           {| random_draws := random_draws w;
              files := files w;
              console := console w ++ [Log "Mock classifier initialized"] |}.
    repeat split.
Qed.

(** C10: the output of [classify] does not depend on its [features]
    argument, whatever the lengths of the vectors: with the same random
    draws it returns the same result, always two scores labelled "healthy"
    and "parkinson" in that order, and it raises nothing. *)
Theorem classify_ignores_features this features1 features2 debug1 debug2 w :
  classify this features1 debug1 w = classify this features2 debug2 w /\
  exists a h p w',
    classify this features1 debug1 w =
    (Normal {| anomaly := a;
               results := [ {| label := "healthy"; value := h |};
                            {| label := "parkinson"; value := p |} ] |}, w').
Proof.
  split; [reflexivity|]. rewrite classify_spec.
  eexists. eexists. eexists. eexists. reflexivity.
Qed.

(** ** The interpreter *)

Section InterpreterFacts.

Variable Number_toString : float -> string.

Lemma positive_message_disclaimer v :
  includes (positive_message Number_toString v)
    "please consult with a healthcare professional" = true.
Proof.
  unfold positive_message. do 2 apply includes_app_r. vm_compute. reflexivity.
Qed.

Lemma negative_message_disclaimer c :
  includes (negative_message Number_toString c)
    "this is a screening tool and cannot replace professional medical advice" = true.
Proof.
  unfold negative_message. do 2 apply includes_app_r. vm_compute. reflexivity.
Qed.

Lemma positive_message_professional v :
  includes (positive_message Number_toString v) "professional" = true.
Proof.
  unfold positive_message. do 2 apply includes_app_r. vm_compute. reflexivity.
Qed.

Lemma negative_message_professional c :
  includes (negative_message Number_toString c) "professional" = true.
Proof.
  unfold negative_message. do 2 apply includes_app_r. vm_compute. reflexivity.
Qed.

End InterpreterFacts.

(** C4: when a score's label matches "parkinson"/"positive", with
    [positiveScore] the first such score, [interpretResults] sets
    [hasParkinson] to [positiveScore.value > 0.5], and [confidence] to
    [positiveScore.value] when [hasParkinson], otherwise to the value of the
    first score matching "healthy"/"negative" when there is one, otherwise
    to [1 - positiveScore.value]. *)
Theorem interpretResults_positive Number_toString result positiveScore :
  first_match matchesParkinson (results result) positiveScore ->
  let i := interpretResults Number_toString result in
  hasParkinson i = gt (value positiveScore) 0.5 /\
  (hasParkinson i = true -> confidence i = value positiveScore) /\
  (hasParkinson i = false ->
   forall negativeScore,
     first_match matchesHealthy (results result) negativeScore ->
     confidence i = value negativeScore) /\
  (hasParkinson i = false ->
   no_match matchesHealthy (results result) ->
   confidence i = (1 - value positiveScore)%float).
Proof.
  intros Hpos. apply find_first_match in Hpos.
  unfold interpretResults. rewrite Hpos. cbn zeta.
  destruct (gt (value positiveScore) 0.5) eqn:Hgt; cbn [hasParkinson confidence].
  - repeat split; intros; try reflexivity; discriminate.
  - repeat split; try discriminate.
    + intros _ negativeScore Hneg. apply find_first_match in Hneg.
      rewrite Hneg. reflexivity.
    + intros _ Hnone. apply find_no_match in Hnone. rewrite Hnone. reflexivity.
Qed.

Lemma interpretResults_positive_witness :
  first_match matchesParkinson (results Host.result_parkinson)
    {| label := "parkinson"; value := 0.73 |} /\
  hasParkinson (interpretResults Host.Number_toString Host.result_parkinson) = true /\
  confidence (interpretResults Host.Number_toString Host.result_parkinson) = 0.73%float.
Proof.
  assert (Hpos : first_match matchesParkinson (results Host.result_parkinson)
                   {| label := "parkinson"; value := 0.73 |}).
  { exists [], [ {| label := "healthy"; value := 0.27 |} ]. repeat split. }
  split; [exact Hpos|].
  destruct (interpretResults_positive Host.Number_toString Host.result_parkinson _ Hpos)
    as (Hhas & Hconf & _).
  split; [exact Hhas | exact (Hconf Hhas)].
Defined.

(** C5: whatever the classification, the message of [interpretResults]
    carries a professional-consultation disclaimer: it mentions the
    "professional", asking to "consult with a healthcare professional" in
    the positive and in the fallback branch, and recalling that the tool
    "cannot replace professional medical advice" in the negative branch. *)
Theorem interpretResults_disclaimer Number_toString result :
  let msg := message (interpretResults Number_toString result) in
  includes msg "professional" = true /\
  (includes msg "consult with a healthcare professional" = true \/
   includes msg "cannot replace professional medical advice" = true) /\
  match find matchesParkinson (results result) with
  | Some positiveScore =>
      if gt (value positiveScore) 0.5
      then includes msg "please consult with a healthcare professional" = true
      else includes msg
             "this is a screening tool and cannot replace professional medical advice"
           = true
  | None =>
      includes msg "Please consult with a healthcare professional" = true
  end.
Proof.
  unfold interpretResults.
  destruct (find matchesParkinson (results result)) as [positiveScore|];
    [destruct (gt (value positiveScore) 0.5)|]; cbn [message]; cbv zeta.
  - split; [apply positive_message_professional|].
    split; [left|apply positive_message_disclaimer].
    unfold positive_message. do 2 apply includes_app_r. vm_compute. reflexivity.
  - split; [apply negative_message_professional|].
    split; [right|apply negative_message_disclaimer].
    unfold negative_message. do 2 apply includes_app_r. vm_compute. reflexivity.
  - split; [|split; [left|]]; vm_compute; reflexivity.
Qed.

(** C6: when no score's label matches "parkinson"/"positive" nor
    "healthy"/"negative", [interpretResults] returns the result's anomaly
    flag as [hasParkinson], 0.5 as [confidence] and the generic
    inconclusive message. *)
Theorem interpretResults_fallback Number_toString result :
  no_match matchesParkinson (results result) ->
  no_match matchesHealthy (results result) ->
  interpretResults Number_toString result =
  {| hasParkinson := anomaly result;
     confidence := 0.5;
     message := inconclusive_message |}.
Proof.
  intros Hpos _. apply find_no_match in Hpos.
  unfold interpretResults. rewrite Hpos, orb_false_r. reflexivity.
Qed.

Lemma interpretResults_fallback_witness :
  no_match matchesParkinson (results Host.result_unlabelled) /\
  no_match matchesHealthy (results Host.result_unlabelled) /\
  interpretResults Host.Number_toString Host.result_unlabelled =
  {| hasParkinson := true; confidence := 0.5; message := inconclusive_message |}.
Proof.
  split; [reflexivity|]. split; [reflexivity|].
  exact (interpretResults_fallback Host.Number_toString Host.result_unlabelled
           eq_refl eq_refl).
Defined.

(** The fallback is taken as soon as no label matches "parkinson" or
    "positive", whether or not one matches "healthy" or "negative". *)
Lemma interpretResults_no_positive Number_toString result :
  no_match matchesParkinson (results result) ->
  interpretResults Number_toString result =
  {| hasParkinson := anomaly result;
     confidence := 0.5;
     message := inconclusive_message |}.
Proof.
  intros Hpos. apply find_no_match in Hpos.
  unfold interpretResults. rewrite Hpos, orb_false_r. reflexivity.
Qed.

(** ** The scenarios of the specification, run on the model *)

Example scenario_healthy :
  interpretResults Host.Number_toString Host.result_healthy =
  {| hasParkinson := false;
     confidence := 0.8;
     message := "Analysis did not detect significant indicators of Parkinson's disease in the speech patterns (80.0% confidence in healthy classification). Remember that this is a screening tool and cannot replace professional medical advice." |}.
Proof. vm_compute. reflexivity. Qed.

Example scenario_parkinson :
  interpretResults Host.Number_toString Host.result_parkinson =
  {| hasParkinson := true;
     confidence := 0.73;
     message := "Analysis detected speech patterns that may indicate Parkinson's disease (73.0% confidence). This is a screening tool only - please consult with a healthcare professional for proper medical evaluation and diagnosis." |}.
Proof. vm_compute. reflexivity. Qed.

Example scenario_case_insensitive :
  matchesParkinson {| label := "PARKINSONS"; value := 0.5 |} = true /\
  matchesHealthy {| label := "Test-Negative"; value := 0.5 |} = true /\
  matchesParkinson {| label := "healthy"; value := 0.5 |} = false.
Proof. repeat split. Qed.

Example toFixed1_rounds_half_up :
  toFixed1 Host.Number_toString 0.25 = "0.3"%string /\
  toFixed1 Host.Number_toString 1234.56 = "1234.6"%string /\
  toFixed1 Host.Number_toString (-0.04) = "-0.0"%string /\
  toFixed1 Host.Number_toString nan = "NaN"%string.
Proof. repeat split. Qed.

(** ** The route [POST /api/analyze-audio] *)

Section ServerFacts.

Variable Math_sin : float -> float.
Variable Number_toString : float -> string.
Variable inspect : Interpretation -> string.

Lemma unlink_if_exists_present p w :
  files w p <> None ->
  unlink_if_exists p w =
  (Normal tt,
   {| random_draws := random_draws w;
      files := fun q => if String.eqb q p then None else files w q;
      console := console w |}).
Proof.
  intros H. unfold unlink_if_exists, bind, fs_existsSync, fs_unlinkSync.
  destruct (files w p) eqn:E; [rewrite E; reflexivity | contradiction].
Qed.

Lemma unlink_if_exists_absent p w :
  files w p = None -> unlink_if_exists p w = (Normal tt, w).
Proof.
  intros H. unfold unlink_if_exists, bind, fs_existsSync. rewrite H. reflexivity.
Qed.

(** The run of the handler on a staged upload that is on disk. *)
Lemma analyze_audio_staged classifier f audioBuffer w :
  files w (path f) = Some audioBuffer ->
  analyze_audio Math_sin Number_toString inspect classifier {| file := Some f |} w =
  let result :=
    {| anomaly := gt (1 - (random_draws w 128 * 0.4 + 0.3)) 0.6;
       results :=
         [ {| label := "healthy"; value := (random_draws w 128 * 0.4 + 0.3)%float |};
           {| label := "parkinson";
              value := (1 - (random_draws w 128 * 0.4 + 0.3))%float |} ] |} in
  (Normal {| status := 200;
             body := Success result (interpretResults Number_toString result) |},
   {| random_draws := fun k => random_draws w (128 + S k);
      files := fun q => if String.eqb q (path f) then None else files w q;
      console :=
        (console w ++ [Log ("Processing audio file: " ++ filename f)]) ++
        [Log ("Analysis complete: " ++
              inspect (interpretResults Number_toString result))] |}).
Proof.
  intros Hfile. unfold analyze_audio, try_catch. cbn [file].
  unfold bind at 1. unfold console_log at 1.
  unfold bind at 1.
  rewrite (processAudioFile_present Math_sin (path f) audioBuffer) by exact Hfile.
  rewrite extractFeaturesFromAudio_spec.
  unfold bind at 1. rewrite classify_spec.
  unfold bind at 1.
  rewrite unlink_if_exists_present by (cbn [files skip_draws]; congruence).
  reflexivity.
Qed.

(** The run of the handler on a staged upload that is not on disk. *)
Lemma analyze_audio_unstaged classifier f w :
  files w (path f) = None ->
  analyze_audio Math_sin Number_toString inspect classifier {| file := Some f |} w =
  (Normal {| status := 500;
             body := Failure "Failed to analyze audio"
                             (Some "Audio file not found"%string) |},
   {| random_draws := random_draws w;
      files := files w;
      console :=
        ((console w ++ [Log ("Processing audio file: " ++ filename f)]) ++
         [LogError "Audio processing error:" (new_Error "Audio file not found")]) ++
        [LogError "Analysis error:" (new_Error "Audio file not found")] |}).
Proof.
  intros Hfile. unfold analyze_audio, try_catch. cbn [file].
  unfold bind at 1. unfold console_log at 1.
  unfold bind at 1.
  rewrite processAudioFile_missing by exact Hfile.
  unfold bind at 1. unfold console_error at 1. unfold bind at 1.
  rewrite unlink_if_exists_absent by exact Hfile.
  reflexivity.
Qed.

End ServerFacts.



(** X3: on a staged file the handler answers 200 with the classification
    that [classify] draws after the extractor's 128 draws, together with the
    interpretation of that very classification; it consumes 129 draws in
    all and logs two lines. *)
Theorem analyze_audio_success
    Math_sin Number_toString inspect classifier f audioBuffer w :
  files w (path f) = Some audioBuffer ->
  exists result w',
    analyze_audio Math_sin Number_toString inspect classifier
      {| file := Some f |} w =
    (Normal {| status := 200;
               body := Success result (interpretResults Number_toString result) |},
     w') /\
    fst (classify classifier [] false (skip_draws 128 w)) = Normal result /\
    (forall k, random_draws w' k = random_draws w (129 + k)) /\
    console w' =
    console w ++
    [Log ("Processing audio file: " ++ filename f);
     Log ("Analysis complete: " ++
          inspect (interpretResults Number_toString result))].
Proof.
  intros Hfile. rewrite (analyze_audio_staged _ _ _ _ _ audioBuffer _ Hfile).
  cbv zeta. eexists. eexists. split; [reflexivity|].
  split; [rewrite classify_spec; cbn [fst skip_draws random_draws];
          rewrite Nat.add_0_r; reflexivity|].
  cbn [random_draws console]. split.
  - intros k. f_equal.
  - rewrite <- app_assoc. reflexivity.
Qed.

Lemma analyze_audio_success_witness :
  files (world_upload [Byte.x52; Byte.x49])
    (path {| originalname := "silence.wav";
             filename := "1730000000000-silence.wav";
             path := "uploads/1730000000000-silence.wav" |}) =
  Some [Byte.x52; Byte.x49] /\
  exists result w',
    analyze_audio Host.Math_sin Host.Number_toString inspect_message
      new_EdgeImpulseClassifier
      (request_of "uploads/1730000000000-silence.wav")
      (world_upload [Byte.x52; Byte.x49]) =
    (Normal {| status := 200;
               body := Success result
                         (interpretResults Host.Number_toString result) |}, w') /\
    hasParkinson (interpretResults Host.Number_toString result) = true /\
    anomaly result = false.
Proof.
  split; [reflexivity|].
  destruct (analyze_audio_success Host.Math_sin Host.Number_toString inspect_message
              new_EdgeImpulseClassifier
              {| originalname := "silence.wav";
                 filename := "1730000000000-silence.wav";
                 path := "uploads/1730000000000-silence.wav" |}
              [Byte.x52; Byte.x49] (world_upload [Byte.x52; Byte.x49]) eq_refl)
    as (result & w' & Hrun & Hres & _).
  exists result, w'. split; [exact Hrun|].
  rewrite classify_spec in Hres. cbn [fst] in Hres.
  injection Hres as <-. split; vm_compute; reflexivity.
Defined.

(** X4: when the staged file is not on disk the handler answers 500 with
    the error "Failed to analyze audio" and the details "Audio file not
    found"; it consumes no random draw, leaves the files alone and logs the
    error. *)
Theorem analyze_audio_missing_file
    Math_sin Number_toString inspect classifier f w :
  files w (path f) = None ->
  let run := analyze_audio Math_sin Number_toString inspect classifier
               {| file := Some f |} w in
  fst run = Normal {| status := 500;
                      body := Failure "Failed to analyze audio"
                                      (Some "Audio file not found"%string) |} /\
  random_draws (snd run) = random_draws w /\
  files (snd run) = files w /\
  In (LogError "Analysis error:" (new_Error "Audio file not found"))
     (console (snd run)).
Proof.
  intros Hfile run. unfold run.
  rewrite (analyze_audio_unstaged _ _ _ _ _ _ Hfile). cbn [fst snd].
  repeat split. cbn [console]. apply in_or_app. right. left. reflexivity.
Qed.

Lemma analyze_audio_missing_file_witness :
  files (Host.world_const 0.25) "uploads/1730000000000-silence.wav" = None /\
  fst (analyze_audio Host.Math_sin Host.Number_toString inspect_message
         new_EdgeImpulseClassifier
         (request_of "uploads/1730000000000-silence.wav")
         (Host.world_const 0.25)) =
  Normal {| status := 500;
            body := Failure "Failed to analyze audio"
                            (Some "Audio file not found"%string) |}.
Proof.
  split; [reflexivity|].
  apply (analyze_audio_missing_file Host.Math_sin Host.Number_toString inspect_message
           new_EdgeImpulseClassifier
           {| originalname := "silence.wav";
              filename := "1730000000000-silence.wav";
              path := "uploads/1730000000000-silence.wav" |}
           (Host.world_const 0.25) eq_refl).
Defined.

(** X5: the answer does not depend on the uploaded audio: two staged files
    of any contents get the same response as soon as the 129th draw of
    [Math.random()] is the same. *)
Theorem analyze_audio_ignores_audio
    Math_sin Number_toString inspect classifier f buffer1 buffer2 w1 w2 :
  files w1 (path f) = Some buffer1 ->
  files w2 (path f) = Some buffer2 ->
  random_draws w1 128 = random_draws w2 128 ->
  fst (analyze_audio Math_sin Number_toString inspect classifier
         {| file := Some f |} w1) =
  fst (analyze_audio Math_sin Number_toString inspect classifier
         {| file := Some f |} w2).
Proof.
  intros H1 H2 Hdraw.
  rewrite (analyze_audio_staged _ _ _ _ _ buffer1 _ H1).
  rewrite (analyze_audio_staged _ _ _ _ _ buffer2 _ H2).
  cbv zeta. cbn [fst]. rewrite Hdraw. reflexivity.
Qed.

Lemma analyze_audio_ignores_audio_witness :
  fst (analyze_audio Host.Math_sin Host.Number_toString inspect_message
         new_EdgeImpulseClassifier
         (request_of "uploads/1730000000000-silence.wav")
         (world_upload [Byte.x52; Byte.x49])) =
  fst (analyze_audio Host.Math_sin Host.Number_toString inspect_message
         new_EdgeImpulseClassifier
         (request_of "uploads/1730000000000-silence.wav")
         (world_upload [Byte.x00; Byte.x01; Byte.x02; Byte.x03; Byte.x04])).
Proof.
  apply (analyze_audio_ignores_audio Host.Math_sin Host.Number_toString
           inspect_message new_EdgeImpulseClassifier
           {| originalname := "silence.wav";
              filename := "1730000000000-silence.wav";
              path := "uploads/1730000000000-silence.wav" |}
           [Byte.x52; Byte.x49]
           [Byte.x00; Byte.x01; Byte.x02; Byte.x03; Byte.x04]
           (world_upload [Byte.x52; Byte.x49])
           (world_upload [Byte.x00; Byte.x01; Byte.x02; Byte.x03; Byte.x04])
           eq_refl eq_refl eq_refl).
Defined.

(** ** The classifier followed by the interpreter *)

Lemma gt_06_gt_05 p : gt p 0.6 = true -> gt p 0.5 = true.
Proof.
  unfold gt. rewrite !ltb_spec.
  change (Prim2SF 0.6) with (S754_finite false 5404319552844595 (-53)).
  change (Prim2SF 0.5) with (S754_finite false 4503599627370496 (-53)).
  unfold SFltb, SFcompare.
  destruct (Prim2SF p) as [s|s| |s m e]; try discriminate; auto.
  destruct s; try discriminate.
  destruct (Z.compare (-53) e); try discriminate; auto.
  change (Pos.compare_cont Eq 5404319552844595 m) with (Pos.compare 5404319552844595 m).
  change (Pos.compare_cont Eq 4503599627370496 m) with (Pos.compare 4503599627370496 m).
  destruct (Pos.compare_spec 5404319552844595 m) as [|Hlt|]; try discriminate.
  intros _. assert (H : (4503599627370496 < m)%positive) by lia.
  apply Pos.compare_lt_iff in H. rewrite H. reflexivity.
Qed.

(** The interpretation of a classification labelled as [classify] labels
    its results. *)
Lemma interpret_labelled Number_toString a h p :
  interpretResults Number_toString
    {| anomaly := a;
       results := [ {| label := "healthy"; value := h |};
                    {| label := "parkinson"; value := p |} ] |} =
  {| hasParkinson := gt p 0.5;
     confidence := if gt p 0.5 then p else h;
     message := if gt p 0.5 then positive_message Number_toString p
                else negative_message Number_toString h |}.
Proof.
  unfold interpretResults. cbn [results find].
  change (matchesParkinson {| label := "healthy"; value := h |}) with false.
  change (matchesParkinson {| label := "parkinson"; value := p |}) with true.
  change (matchesHealthy {| label := "healthy"; value := h |}) with true.
  cbv iota zeta. cbn [value].
  destruct (gt p 0.5); reflexivity.
Qed.

(** X6: on whatever [classify] returns, [interpretResults] takes the
    labelled branch, never the inconclusive fallback: [hasParkinson] is
    [parkinson score > 0.5], the confidence is the parkinson score when
    [hasParkinson] and the healthy score otherwise, and the message is the
    matching verdict. *)
Theorem classify_then_interpret Number_toString this rawData debug w :
  exists h p a w',
    classify this rawData debug w =
    (Normal {| anomaly := a;
               results := [ {| label := "healthy"; value := h |};
                            {| label := "parkinson"; value := p |} ] |}, w') /\
    interpretResults Number_toString
      {| anomaly := a;
         results := [ {| label := "healthy"; value := h |};
                      {| label := "parkinson"; value := p |} ] |} =
    {| hasParkinson := gt p 0.5;
       confidence := if gt p 0.5 then p else h;
       message := if gt p 0.5 then positive_message Number_toString p
                  else negative_message Number_toString h |}.
Proof.
  rewrite classify_spec. eexists. eexists. eexists. eexists.
  split; [reflexivity | apply interpret_labelled].
Qed.

(** X7: the two thresholds nest: whenever [classify] raises the anomaly
    flag, the interpretation of its result has [hasParkinson] set. *)
Theorem anomaly_implies_hasParkinson Number_toString this rawData debug w result :
  fst (classify this rawData debug w) = Normal result ->
  anomaly result = true ->
  hasParkinson (interpretResults Number_toString result) = true.
Proof.
  rewrite classify_spec. cbn [fst]. intros [= <-]. cbn [anomaly].
  intros Hanomaly. apply gt_06_gt_05 in Hanomaly.
  unfold interpretResults. cbn [results find].
  change (matchesParkinson {| label := "healthy"; value := _ |}) with false.
  change (matchesParkinson {| label := "parkinson"; value := _ |}) with true.
  cbv iota zeta. cbn [value hasParkinson]. exact Hanomaly.
Qed.

Lemma anomaly_implies_hasParkinson_witness :
  exists result,
    fst (classify new_EdgeImpulseClassifier [] false (Host.world_const 0.125)) =
    Normal result /\
    anomaly result = true /\
    hasParkinson (interpretResults Host.Number_toString result) = true.
Proof.
  eexists. split; [reflexivity|]. split; [reflexivity|].
  apply (anomaly_implies_hasParkinson Host.Number_toString
           new_EdgeImpulseClassifier [] false (Host.world_const 0.125));
    reflexivity.
Defined.

(** ** More on the extractor *)

(** X8: [extractFeaturesFromAudio] returns 128 features, the [i]-th being
    [(Math.sin(seed + i) + d * 0.5) * 0.5] with [seed] the buffer length
    modulo 1000 and [d] the [i]-th value drawn; it consumes exactly those
    128 draws, prints nothing and leaves the files alone. *)
Theorem extract_feature_formula Math_sin audioBuffer w :
  exists v w',
    extractFeaturesFromAudio Math_sin audioBuffer w = (Normal v, w') /\
    List.length v = 128%nat /\
    (forall i, (i < 128)%nat ->
       nth i v 0%float =
       ((Math_sin (of_Z (Z.of_nat (List.length audioBuffer) mod 1000)
                   + of_Z (Z.of_nat i))
         + random_draws w i * 0.5) * 0.5)%float) /\
    (forall k, random_draws w' k = random_draws w (128 + k)) /\
    files w' = files w /\
    console w' = console w.
Proof.
  rewrite extractFeaturesFromAudio_spec. eexists. eexists.
  split; [reflexivity|]. split; [rewrite length_map, length_seq; reflexivity|].
  split; [|repeat split].
  intros i Hi.
  set (g := fun k => feature Math_sin
                       (Z.of_nat (List.length audioBuffer) mod 1000)
                       (Z.of_nat k) (random_draws w k)).
  change (nth i (map g (seq 0 128)) 0%float = g i).
  rewrite nth_indep with (d' := g 0%nat)
    by (rewrite length_map, length_seq; exact Hi).
  rewrite map_nth, seq_nth by exact Hi. reflexivity.
Qed.

Lemma extract_depends_on_length_witness :
  Z.of_nat (List.length [Byte.x52; Byte.x49]) mod 1000 =
  Z.of_nat (List.length (repeat Byte.x00 1002)) mod 1000 /\
  extractFeaturesFromAudio Host.Math_sin [Byte.x52; Byte.x49] Host.world_two_phase =
  extractFeaturesFromAudio Host.Math_sin (repeat Byte.x00 1002) Host.world_two_phase.
Proof.
  assert (H : Z.of_nat (List.length [Byte.x52; Byte.x49]) mod 1000 =
              Z.of_nat (List.length (repeat Byte.x00 1002)) mod 1000)
    by (vm_compute; reflexivity).
  split; [exact H|].
  exact (extract_depends_on_length Host.Math_sin [Byte.x52; Byte.x49]
           (repeat Byte.x00 1002) Host.world_two_phase H).
Defined.

(** ** The names of staged uploads *)

Lemma decimal_digits_only n : digits_only (decimal n).
Proof.
  unfold digits_only, decimal, NilZero.string_of_uint.
  destruct (N.to_uint (Z.to_N n)) eqn:E;
    try (rewrite <- E, NilEmpty.usu; discriminate).
  cbn. discriminate.
Qed.

Lemma decimal_inj a b : 0 <= a -> 0 <= b -> decimal a = decimal b -> a = b.
Proof.
  intros Ha Hb H. apply Z2N.inj; try assumption.
  apply DecimalN.Unsigned.to_uint_inj.
  assert (Hnil : forall n, N.to_uint n <> Decimal.Nil).
  { intros [|q]; [discriminate | apply DecimalPos.Unsigned.to_uint_nonnil]. }
  unfold decimal, NilZero.string_of_uint in H.
  assert (Ha' := Hnil (Z.to_N a)). assert (Hb' := Hnil (Z.to_N b)).
  assert (E : NilEmpty.string_of_uint (N.to_uint (Z.to_N a)) =
              NilEmpty.string_of_uint (N.to_uint (Z.to_N b))).
  { destruct (N.to_uint (Z.to_N a)), (N.to_uint (Z.to_N b));
      try contradiction; exact H. }
  apply (f_equal NilEmpty.uint_of_string) in E.
  rewrite !NilEmpty.usu in E. congruence.
Qed.

(** A run of digits followed by a dash splits in one way only. *)
Lemma digits_dash_split a b s t :
  digits_only a -> digits_only b ->
  (a ++ "-" ++ s = b ++ "-" ++ t)%string -> a = b /\ s = t.
Proof.
  unfold digits_only. revert b.
  induction a as [|c a IH]; intros [|d b] Ha Hb H; cbn [String.append] in H.
  - injection H as H. auto.
  - injection H as Hc _. subst d. exfalso. apply Hb. cbn.
    destruct (NilEmpty.uint_of_string b); reflexivity.
  - injection H as Hc _. subst c. exfalso. apply Ha. cbn.
    destruct (NilEmpty.uint_of_string a); reflexivity.
  - injection H as Hc H. subst d.
    destruct (IH b) as [-> ->]; auto.
    + intros E. apply Ha. cbn. rewrite E. reflexivity.
    + intros E. apply Hb. cbn. rewrite E. reflexivity.
Qed.

(** X10: the name under which an upload is staged determines both the
    clock value and the original name: two uploads get the same name only
    when they carry the same original name and arrive at the same
    millisecond. *)
Theorem storage_filename_injective now1 now2 originalname1 originalname2 :
  0 <= now1 -> 0 <= now2 ->
  storage_filename now1 originalname1 = storage_filename now2 originalname2 ->
  now1 = now2 /\ originalname1 = originalname2.
Proof.
  intros H1 H2. unfold storage_filename, integer_toString.
  replace (now1 <? 0) with false by (symmetry; apply Z.ltb_ge; exact H1).
  replace (now2 <? 0) with false by (symmetry; apply Z.ltb_ge; exact H2).
  intros H. apply digits_dash_split in H; auto using decimal_digits_only.
  destruct H as [Hd Hn]. split; [apply decimal_inj; assumption | exact Hn].
Qed.

Lemma storage_filename_injective_witness :
  0 <= 1730000000000 /\
  storage_filename 1730000000000 "silence.wav" =
  storage_filename 1730000000000 "silence.wav" /\
  storage_filename 1730000000000 "silence.wav" = "1730000000000-silence.wav"%string /\
  1730000000000 = 1730000000000 /\ "silence.wav"%string = "silence.wav"%string.
Proof.
  assert (H0 : 0 <= 1730000000000) by lia.
  split; [exact H0|]. split; [reflexivity|]. split; [vm_compute; reflexivity|].
  exact (storage_filename_injective 1730000000000 1730000000000
           "silence.wav" "silence.wav" H0 H0 eq_refl).
Defined.

(** ** Label order *)

Lemma find_unique_permutation {A} (p : A -> bool) l l' :
  (forall x y, In x l -> In y l -> p x = true -> p y = true -> x = y) ->
  Permutation l l' -> find p l = find p l'.
Proof.
  intros Huniq Hperm.
  destruct (find p l) as [x|] eqn:Hl, (find p l') as [y|] eqn:Hl'; auto.
  - apply find_some in Hl, Hl'. destruct Hl as [Hx Hpx], Hl' as [Hy Hpy].
    f_equal. apply Huniq; auto.
    apply Permutation_in with (l := l'); [apply Permutation_sym|]; assumption.
  - apply find_some in Hl. destruct Hl as [Hx Hpx].
    apply (Permutation_in _ Hperm) in Hx.
    rewrite (find_none _ _ Hl' _ Hx) in Hpx. discriminate.
  - apply find_some in Hl'. destruct Hl' as [Hy Hpy].
    apply (Permutation_in _ (Permutation_sym Hperm)) in Hy.
    rewrite (find_none _ _ Hl _ Hy) in Hpy. discriminate.
Qed.

(** X11: when at most one score matches "parkinson"/"positive" and at most
    one matches "healthy"/"negative", the interpretation does not depend on
    the order in which the scores are listed. *)
Theorem interpretResults_order_irrelevant Number_toString a scores scores' :
  (forall x y, In x scores -> In y scores ->
     matchesParkinson x = true -> matchesParkinson y = true -> x = y) ->
  (forall x y, In x scores -> In y scores ->
     matchesHealthy x = true -> matchesHealthy y = true -> x = y) ->
  Permutation scores scores' ->
  interpretResults Number_toString {| anomaly := a; results := scores |} =
  interpretResults Number_toString {| anomaly := a; results := scores' |}.
Proof.
  intros Hpos Hneg Hperm. unfold interpretResults. cbn [results anomaly].
  rewrite (find_unique_permutation matchesParkinson scores scores' Hpos Hperm).
  rewrite (find_unique_permutation matchesHealthy scores scores' Hneg Hperm).
  reflexivity.
Qed.

Lemma interpretResults_order_irrelevant_witness :
  Permutation (results Host.result_parkinson)
    [ {| label := "healthy"; value := 0.27 |};
      {| label := "parkinson"; value := 0.73 |} ] /\
  interpretResults Host.Number_toString
    {| anomaly := true; results := results Host.result_parkinson |} =
  interpretResults Host.Number_toString
    {| anomaly := true;
       results := [ {| label := "healthy"; value := 0.27 |};
                    {| label := "parkinson"; value := 0.73 |} ] |}.
Proof.
  assert (Hperm : Permutation (results Host.result_parkinson)
            [ {| label := "healthy"; value := 0.27 |};
              {| label := "parkinson"; value := 0.73 |} ])
    by apply perm_swap.
  split; [exact Hperm|].
  apply (interpretResults_order_irrelevant Host.Number_toString true
           (results Host.result_parkinson) _); [| |exact Hperm];
    intros x y [<-|[<-|[]]] [<-|[<-|[]]] Hx Hy;
    try reflexivity; discriminate.
Defined.

(** ** The ranges of the computed numbers *)

(** X12: for a draw of [Math.random()] in [0, 1), the scores [classify]
    returns are the "30-70%" its comment announces, up to rounding: the
    healthy score lies between 0.3 and 0.7000000000000001, the parkinson
    score between 0.29999999999999993 and 0.7000000000000001; both are
    therefore numbers of [0, 1]. *)
Theorem classify_scores_range this rawData debug w :
  in_unit_interval (random_draws w 0) = true ->
  exists h p a w',
    classify this rawData debug w =
    (Normal {| anomaly := a;
               results := [ {| label := "healthy"; value := h |};
                            {| label := "parkinson"; value := p |} ] |}, w') /\
    (PrimFloat.leb 0.3 h = true /\ PrimFloat.leb h 0.7000000000000001 = true) /\
    (PrimFloat.leb 0.29999999999999993 p = true /\
     PrimFloat.leb p 0.7000000000000001 = true) /\
    (PrimFloat.leb 0 h = true /\ PrimFloat.leb h 1 = true) /\
    (PrimFloat.leb 0 p = true /\ PrimFloat.leb p 1 = true).
Proof.
  intros Hr. rewrite classify_spec.
  eexists. eexists. eexists. eexists. split; [reflexivity|].
  exact (Binary64Order.scores_range _ Hr).
Qed.

Lemma classify_scores_range_witness :
  in_unit_interval (random_draws (Host.world_const 0.375) 0) = true /\
  exists h p a w',
    classify new_EdgeImpulseClassifier [] false (Host.world_const 0.375) =
    (Normal {| anomaly := a;
               results := [ {| label := "healthy"; value := h |};
                            {| label := "parkinson"; value := p |} ] |}, w') /\
    (PrimFloat.leb 0 h = true /\ PrimFloat.leb h 1 = true) /\
    (PrimFloat.leb 0 p = true /\ PrimFloat.leb p 1 = true).
Proof.
  split; [reflexivity|].
  destruct (classify_scores_range new_EdgeImpulseClassifier [] false
              (Host.world_const 0.375) eq_refl)
    as (h & p & a & w' & Hrun & _ & _ & Hh & Hp).
  exists h, p, a, w'. split; [exact Hrun|]. split; assumption.
Defined.

(** X13: given that [Math.sin] maps finite numbers into [-1, 1] and that
    [Math.random()] returns numbers of [0, 1), every feature that
    [extractFeaturesFromAudio] returns lies between -0.5 and 0.75. *)
Theorem extract_features_range Math_sin audioBuffer w :
  (forall x, is_finite x = true -> in_unit_ball (Math_sin x) = true) ->
  (forall n, in_unit_interval (random_draws w n) = true) ->
  exists v w',
    extractFeaturesFromAudio Math_sin audioBuffer w = (Normal v, w') /\
    Forall (fun x => PrimFloat.leb (-0.5) x = true /\ PrimFloat.leb x 0.75 = true) v.
Proof.
  intros Hsin Hrandom. rewrite extractFeaturesFromAudio_spec.
  eexists. eexists. split; [reflexivity|].
  apply Forall_forall. intros x Hx. apply in_map_iff in Hx.
  destruct Hx as (k & <- & Hk). apply in_seq in Hk.
  unfold feature. apply Binary64Order.scaled_sum_range; [|apply Hrandom].
  apply Hsin, of_Z_sum_finite.
  - assert (Hmod := Z.mod_pos_bound (Z.of_nat (List.length audioBuffer)) 1000).
    assert (1000 < 2 ^ 62) by reflexivity. lia.
  - assert (128 < 2 ^ 62) by reflexivity. lia.
Qed.

Lemma extract_features_range_witness :
  (forall x, is_finite x = true -> in_unit_ball (Host.Math_sin x) = true) /\
  (forall n, in_unit_interval (random_draws (Host.world_const 0.25) n) = true) /\
  exists v w',
    extractFeaturesFromAudio Host.Math_sin [Byte.x52; Byte.x49; Byte.x46]
      (Host.world_const 0.25) = (Normal v, w') /\
    Forall (fun x => PrimFloat.leb (-0.5) x = true /\ PrimFloat.leb x 0.75 = true) v.
Proof.
  assert (Hr : forall n, in_unit_interval (random_draws (Host.world_const 0.25) n) = true)
    by (intros n; reflexivity).
  split; [exact Host_Math_sin_range|]. split; [exact Hr|].
  exact (extract_features_range Host.Math_sin [Byte.x52; Byte.x49; Byte.x46]
           (Host.world_const 0.25) Host_Math_sin_range Hr).
Defined.

(** X14: for a draw of [0, 1), the confidence the interpreter reports on the
    classifier's result is one of the two scores, hence a number of [0, 1]. *)
Theorem pipeline_confidence_range Number_toString this rawData debug w :
  in_unit_interval (random_draws w 0) = true ->
  exists result w',
    classify this rawData debug w = (Normal result, w') /\
    PrimFloat.leb 0 (confidence (interpretResults Number_toString result)) = true /\
    PrimFloat.leb (confidence (interpretResults Number_toString result)) 1 = true.
Proof.
  intros Hr. rewrite classify_spec. eexists. eexists. split; [reflexivity|].
  rewrite interpret_labelled. cbn [confidence].
  destruct (Binary64Order.scores_range _ Hr) as (_ & _ & Hh & Hp).
  cbv zeta in Hh, Hp. destruct (gt _ 0.5); assumption.
Qed.

Lemma pipeline_confidence_range_witness :
  in_unit_interval (random_draws (Host.world_const 0.125) 0) = true /\
  exists result w',
    classify new_EdgeImpulseClassifier [] false (Host.world_const 0.125) =
    (Normal result, w') /\
    PrimFloat.leb 0 (confidence (interpretResults Host.Number_toString result)) = true /\
    PrimFloat.leb (confidence (interpretResults Host.Number_toString result)) 1 = true.
Proof.
  split; [reflexivity|].
  exact (pipeline_confidence_range Host.Number_toString new_EdgeImpulseClassifier
           [] false (Host.world_const 0.125) eq_refl).
Defined.


(** ** Label matching *)

Lemma toLowerCase_app a b :
  toLowerCase (a ++ b) = (toLowerCase a ++ toLowerCase b)%string.
Proof.
  induction a as [|c a IH]; cbn [String.append toLowerCase]; [reflexivity|].
  rewrite IH. reflexivity.
Qed.

(** X16: label matching is a case-insensitive substring test: a label that
    contains "parkinson" or "positive" written in any mix of upper and lower
    case, anywhere, counts as the positive class, and likewise "healthy" or
    "negative" for the negative class. *)
Theorem label_matching_case_insensitive before word after v :
  (toLowerCase word = "parkinson"%string \/ toLowerCase word = "positive"%string ->
   matchesParkinson {| label := before ++ word ++ after; value := v |} = true) /\
  (toLowerCase word = "healthy"%string \/ toLowerCase word = "negative"%string ->
   matchesHealthy {| label := before ++ word ++ after; value := v |} = true).
Proof.
  unfold matchesParkinson, matchesHealthy. cbn [label].
  rewrite !toLowerCase_app.
  split; intros [H|H]; rewrite H; apply orb_true_iff; [left|right|left|right];
    apply includes_spec; eexists; eexists; reflexivity.
Qed.

Lemma label_matching_case_insensitive_witness :
  (toLowerCase "PaRkInSoN" = "parkinson"%string \/
   toLowerCase "PaRkInSoN" = "positive"%string) /\
  matchesParkinson {| label := "class_" ++ "PaRkInSoN" ++ "s (v2)"; value := 0.5 |} = true.
Proof.
  assert (H : toLowerCase "PaRkInSoN" = "parkinson"%string \/
              toLowerCase "PaRkInSoN" = "positive"%string) by (left; reflexivity).
  split; [exact H|].
  exact (proj1 (label_matching_case_insensitive "class_" "PaRkInSoN" "s (v2)" 0.5) H).
Defined.
